(** * Str: a reference-counted immutable C string (str.hpp)

    A shallow embedding of the class [Str] of [str.hpp] and the properties
    of its reference counting, comparison operators, stream output and
    integer parsing.

    The embedding keeps the program's own picture of memory:
    - a [Str] object is a pair of pointers, [ptr] to a [char] array and
      [counter] to an [int]; [nullptr] is [None];
    - the free store holds the [char] arrays made by [new char[n]] and the
      [int] cells made by [new int]; [delete] removes them;
    - the objects themselves live in a store indexed by their identity, so
      that [a = a] and [a = b] with two names of one buffer are told apart
      from an assignment between unrelated values.

    Every member function is a function [state -> option state] (or
    [state -> option result] for the observers); [None] stands for
    undefined behaviour: reading through a pointer that is not allocated,
    overflowing the [int] counter, using an object that is not alive. *)

From Stdlib Require Import ZArith Lia.
From Stdlib Require Import Strings.Byte.
From stdpp Require Import gmap list option.

Local Open Scope Z_scope.

(* ===================================================================== *)
(** * Memory model                                                        *)
(* ===================================================================== *)

(** Addresses in the free store, and identities of [Str] objects. *)
Abbreviation addr := nat (only parsing).
Abbreviation obj := nat (only parsing).

(** Equality of bytes is decided by [Byte.eqb]. *)
#[global] Instance byte_eq_decision : EqDecision byte := Byte.byte_eq_dec.

(** [class Str { const char* ptr; int* counter; }] *)
Record Str : Type := mkStr {
  ptr : option addr;
  counter : option addr
}.

(** The free store ([chars], [ints]) and the [Str] objects alive. *)
Record state : Type := mkState {
  chars : gmap addr (list byte);
  ints : gmap addr Z;
  objs : gmap obj Str
}.

Definition empty_state : state := mkState ∅ ∅ ∅.

Definition with_chars (f : gmap addr (list byte) → gmap addr (list byte))
    (st : state) : state :=
  mkState (f (chars st)) (ints st) (objs st).

Definition with_ints (f : gmap addr Z → gmap addr Z) (st : state) : state :=
  mkState (chars st) (f (ints st)) (objs st).

Definition with_objs (f : gmap obj Str → gmap obj Str) (st : state) : state :=
  mkState (chars st) (ints st) (f (objs st)).

(** ** The type [int]

    32 bits wide, two's complement, as on the platforms the class is
    built for. *)

Definition INT_MAX : Z := 2147483647.
Definition INT_MIN : Z := -2147483648.

(** A value of type [int], or nothing when the mathematical result is not
    representable (signed overflow is undefined). *)
Definition to_int (v : Z) : option Z :=
  if decide (INT_MIN ≤ v ≤ INT_MAX) then Some v else None.

(** ** Fields of an object *)

Definition get_ptr (this : obj) (st : state) : option (option addr) :=
  ptr <$> objs st !! this.

Definition get_counter (this : obj) (st : state) : option (option addr) :=
  counter <$> objs st !! this.

Definition set_ptr (this : obj) (p : option addr) (st : state) : option state :=
  o ← objs st !! this;
  Some (with_objs <[this := mkStr p (counter o)]> st).

Definition set_counter (this : obj) (c : option addr) (st : state) : option state :=
  o ← objs st !! this;
  Some (with_objs <[this := mkStr (ptr o) c]> st).

(** ** Cells of type [int] *)

(** [*c] *)
Definition load_int (c : addr) (st : state) : option Z := ints st !! c.

(** [*c = v] *)
Definition store_int (c : addr) (v : Z) (st : state) : option state :=
  _ ← ints st !! c;
  Some (with_ints <[c := v]> st).

(** [( *c)++] *)
Definition incr (c : addr) (st : state) : option state :=
  v ← load_int c st;
  v' ← to_int (v + 1);
  store_int c v' st.

(** [( *c)--] *)
Definition decr (c : addr) (st : state) : option state :=
  v ← load_int c st;
  v' ← to_int (v - 1);
  store_int c v' st.

(** [new int]: some address not in use, as [fresh] picks it (an address
    that was freed can be handed out again); the cell is written before it
    is read, so its first content does not matter. *)
Definition new_int (st : state) : addr * state :=
  let c := fresh (dom (ints st)) in
  (c, with_ints <[c := 0]> st).

(** [delete c] *)
Definition delete_int (c : addr) (st : state) : option state :=
  _ ← ints st !! c;
  Some (with_ints (delete c) st).

(** ** Arrays of [char] *)

(** [new char[n]], filled with the bytes [bs]: some address not in use. *)
Definition new_chars (bs : list byte) (st : state) : addr * state :=
  let p := fresh (dom (chars st)) in
  (p, with_chars <[p := bs]> st).

(** [delete[] p]; deleting the null pointer does nothing. *)
Definition delete_chars (p : option addr) (st : state) : option state :=
  match p with
  | None => Some st
  | Some a => _ ← chars st !! a; Some (with_chars (delete a) st)
  end.

(** [memcpy(dst, src, n)] followed by [dst[n] = 0], as the content of the
    destination array of [n + 1] bytes. The source [src] is the array the
    pointer designates; reading [n] bytes needs [n] bytes to be there, and
    an array of [n] bytes in memory has [n] below [SIZE_MAX], so that
    [n + 1] does not wrap around. *)
Definition memcpy_terminated (src : list byte) (n : nat) : option (list byte) :=
  if decide (n ≤ length src)%nat then Some (take n src ++ [x00]) else None.

(* ===================================================================== *)
(** * The C library functions the class calls                             *)
(* ===================================================================== *)

(** [unsigned char] value of a byte. *)
Definition uchar (b : byte) : Z := Z.of_N (Byte.to_N b).

(** The C string an array holds: the bytes before the first zero byte.
    Without a zero byte the read runs off the array. *)
Fixpoint c_string (a : list byte) : option (list byte) :=
  match a with
  | [] => None
  | b :: r =>
      if decide (b = x00) then Some []
      else w ← c_string r; Some (b :: w)
  end.

(** [strcmp]: the difference of the first two bytes that differ, compared
    as [unsigned char]; 0 when both strings end together. (The standard
    fixes the sign of the result only, and only the sign is used.) *)
Fixpoint strcmp_bytes (a b : list byte) : option Z :=
  match a, b with
  | x :: a', y :: b' =>
      if decide (x = y) then
        if decide (x = x00) then Some 0 else strcmp_bytes a' b'
      else Some (uchar x - uchar y)
  | _, _ => None
  end.

Definition strcmp (p q : addr) (st : state) : option Z :=
  a ← chars st !! p;
  b ← chars st !! q;
  strcmp_bytes a b.

(** [isspace] and [isdigit] in the C locale. *)
Definition isspace (b : byte) : bool :=
  bool_decide (b = x20 ∨ b = x09 ∨ b = x0a ∨ b = x0b ∨ b = x0c ∨ b = x0d).

Definition isdigit (b : byte) : bool :=
  bool_decide (48 ≤ uchar b ≤ 57).

Fixpoint skip_spaces (a : list byte) : option (list byte) :=
  match a with
  | [] => None
  | b :: r => if isspace b then skip_spaces r else Some a
  end.

(** The value of the longest run of digits at the front of [a], from the
    accumulator [acc]. *)
Fixpoint read_digits (acc : Z) (a : list byte) : option Z :=
  match a with
  | [] => None
  | b :: r =>
      if isdigit b then read_digits (10 * acc + (uchar b - 48)) r
      else Some acc
  end.

(** [atoi]: white space, an optional sign, decimal digits; 0 when there is
    no digit; undefined when the value is not an [int]. *)
Definition atoi_bytes (a : list byte) : option Z :=
  s ← skip_spaces a;
  match s with
  | [] => None
  | b :: r =>
      if decide (b = "-"%byte) then v ← read_digits 0 r; to_int (- v)
      else if decide (b = "+"%byte) then v ← read_digits 0 r; to_int v
      else v ← read_digits 0 s; to_int v
  end.

Definition atoi (p : option addr) (st : state) : option Z :=
  a ← p;
  bs ← chars st !! a;
  atoi_bytes bs.

(* ===================================================================== *)
(** * The class [Str]                                                     *)
(* ===================================================================== *)

(** [Str() : ptr(nullptr), counter(nullptr) {}] *)
Definition Str_default (this : obj) (st : state) : option state :=
  Some (with_objs <[this := mkStr None None]> st).

(** [Str(const char* str, size_t length) : counter(new int)]
<<
    char* strin = new char[length + 1];
    memcpy(strin, str, length);
    strin[length] = 0;
    ptr = strin;
    *counter = 1;
>>
    The member initializer runs first; [ptr] has no value until the body
    assigns it, and is not read before. *)
Definition Str_from (this : obj) (str : list byte) (length : nat)
    (st : state) : option state :=
  let '(c, st) := new_int st in
  let st := with_objs <[this := mkStr None (Some c)]> st in
  bs ← memcpy_terminated str length;
  let '(strin, st) := new_chars bs st in
  st ← set_ptr this (Some strin) st;
  c ← get_counter this st;
  c ← c;
  store_int c 1 st.

(** [Str(const std::string& str) : Str(str.c_str(), str.size()) {}] *)
Definition Str_of_string (this : obj) (str : list byte) (st : state) : option state :=
  Str_from this (str ++ [x00]) (length str) st.

(** [Str(const Str& other) : ptr(other.ptr), counter(other.counter)]
<<
    if (counter != nullptr) ( *counter)++;
>> *)
Definition Str_copy (this other : obj) (st : state) : option state :=
  o ← objs st !! other;
  let st := with_objs <[this := mkStr (ptr o) (counter o)]> st in
  c ← get_counter this st;
  match c with
  | Some c => incr c st
  | None => Some st
  end.

(** [Str& operator=(const Str& other)]
<<
    if (counter != nullptr) ( *counter)--;
    ptr = other.ptr;
    counter = other.counter;
    if (counter != nullptr) ( *counter)++;
    return *this;
>> *)
Definition Str_assign (this other : obj) (st : state) : option state :=
  c ← get_counter this st;
  st ← match c with
       | Some c => decr c st
       | None => Some st
       end;
  p ← get_ptr other st;
  st ← set_ptr this p st;
  c ← get_counter other st;
  st ← set_counter this c st;
  c ← get_counter this st;
  match c with
  | Some c => incr c st
  | None => Some st
  end.

(** [~Str()]
<<
    if (counter == nullptr) return;
    ( *counter)--;
    if ( *counter == 0) { delete[] ptr; delete counter; }
>>
    after which the object is no longer alive. *)
Definition Str_destroy (this : obj) (st : state) : option state :=
  c ← get_counter this st;
  st ← match c with
       | None => Some st
       | Some c =>
           st ← decr c st;
           v ← load_int c st;
           if decide (v = 0) then
             p ← get_ptr this st;
             st ← delete_chars p st;
             delete_int c st
           else Some st
       end;
  Some (with_objs (delete this) st).

(** [int ref_count() const] *)
Definition ref_count (this : obj) (st : state) : option Z :=
  c ← get_counter this st;
  match c with
  | None => Some 0
  | Some c => load_int c st
  end.

(** [const char* c_str() const { return ptr; }] *)
Definition c_str (this : obj) (st : state) : option (option addr) :=
  get_ptr this st.

(** [bool valid() const { return counter == nullptr; }] *)
Definition valid (this : obj) (st : state) : option bool :=
  c ← get_counter this st;
  Some (bool_decide (c = None)).

(** [std::ostream& operator<<(std::ostream& os, const Str& s)]; the stream
    is the sequence of bytes written to it so far, and [os << s.ptr]
    writes the C string at [s.ptr]. *)
Definition op_shl (os : list byte) (s : obj) (st : state) : option (list byte) :=
  p ← get_ptr s st;
  match p with
  | Some a => bs ← chars st !! a; w ← c_string bs; Some (os ++ w)
  | None => Some os
  end.

(** [operator==]
<<
    if (s1.ptr == s2.ptr) return true;
    if (s1.ptr == nullptr || s2.ptr == nullptr) return false;
    return strcmp(s1.ptr, s2.ptr) == 0;
>> *)
Definition op_eq (s1 s2 : obj) (st : state) : option bool :=
  p1 ← get_ptr s1 st;
  p2 ← get_ptr s2 st;
  if decide (p1 = p2) then Some true
  else if decide (p1 = None ∨ p2 = None) then Some false
  else a ← p1; b ← p2; r ← strcmp a b st; Some (bool_decide (r = 0)).

(** [operator!=], the same with the results negated. *)
Definition op_ne (s1 s2 : obj) (st : state) : option bool :=
  p1 ← get_ptr s1 st;
  p2 ← get_ptr s2 st;
  if decide (p1 = p2) then Some false
  else if decide (p1 = None ∨ p2 = None) then Some true
  else a ← p1; b ← p2; r ← strcmp a b st; Some (bool_decide (r ≠ 0)).

(** [operator<]
<<
    if (s1.ptr == nullptr && s2.ptr == nullptr) return false;
    if (s1.ptr == nullptr) return true; // nullptr < any-string
    if (s2.ptr == nullptr) return false;
    return strcmp(s1.ptr, s2.ptr) < 0;
>> *)
Definition op_lt (s1 s2 : obj) (st : state) : option bool :=
  p1 ← get_ptr s1 st;
  p2 ← get_ptr s2 st;
  if decide (p1 = None ∧ p2 = None) then Some false
  else if decide (p1 = None) then Some true
  else if decide (p2 = None) then Some false
  else a ← p1; b ← p2; r ← strcmp a b st; Some (bool_decide (r < 0)).

(** [operator>]: false, false, true, [strcmp(s1.ptr, s2.ptr) > 0]. *)
Definition op_gt (s1 s2 : obj) (st : state) : option bool :=
  p1 ← get_ptr s1 st;
  p2 ← get_ptr s2 st;
  if decide (p1 = None ∧ p2 = None) then Some false
  else if decide (p1 = None) then Some false
  else if decide (p2 = None) then Some true
  else a ← p1; b ← p2; r ← strcmp a b st; Some (bool_decide (0 < r)).

(** [operator<=]: true, true, false, [strcmp(s1.ptr, s2.ptr) <= 0]. *)
Definition op_le (s1 s2 : obj) (st : state) : option bool :=
  p1 ← get_ptr s1 st;
  p2 ← get_ptr s2 st;
  if decide (p1 = None ∧ p2 = None) then Some true
  else if decide (p1 = None) then Some true
  else if decide (p2 = None) then Some false
  else a ← p1; b ← p2; r ← strcmp a b st; Some (bool_decide (r ≤ 0)).

(** [operator>=]: true, false, true, [strcmp(s1.ptr, s2.ptr) >= 0]. *)
Definition op_ge (s1 s2 : obj) (st : state) : option bool :=
  p1 ← get_ptr s1 st;
  p2 ← get_ptr s2 st;
  if decide (p1 = None ∧ p2 = None) then Some true
  else if decide (p1 = None) then Some false
  else if decide (p2 = None) then Some true
  else a ← p1; b ← p2; r ← strcmp a b st; Some (bool_decide (0 ≤ r)).

(** [int parse_to_int() const { return std::atoi(ptr); }] *)
Definition parse_to_int (this : obj) (st : state) : option Z :=
  p ← get_ptr this st;
  atoi p st.

(** The bytes of the array [c_str()] points to. *)
Definition raw_content (this : obj) (st : state) : option (list byte) :=
  p ← c_str this st;
  a ← p;
  chars st !! a.

(* ===================================================================== *)
(** * Programs over [Str] objects                                         *)
(* ===================================================================== *)

(** The statements a client can write. The language fixes when an object
    is alive: a constructor runs on storage that holds no object, and the
    destructor ends the object's life. *)
Inductive stmt : Type :=
  | SDefault (x : obj)                                (* [Str x;] *)
  | SFrom (x : obj) (str : list byte) (length : nat)  (* [Str x(str, length);] *)
  | SCopy (x y : obj)                                 (* [Str x(y);] *)
  | SAssign (x y : obj)                               (* [x = y;] *)
  | SDestroy (x : obj).                               (* [x] leaves its scope *)

Definition alive (x : obj) (st : state) : bool :=
  bool_decide (is_Some (objs st !! x)).

Definition exec (s : stmt) (st : state) : option state :=
  match s with
  | SDefault x => if alive x st then None else Str_default x st
  | SFrom x str n => if alive x st then None else Str_from x str n st
  | SCopy x y => if alive x st then None else Str_copy x y st
  | SAssign x y => Str_assign x y st
  | SDestroy x => Str_destroy x st
  end.

Fixpoint run (p : list stmt) (st : state) : option state :=
  match p with
  | [] => Some st
  | s :: p => st ← exec s st; run p st
  end.

(** The object a statement writes to. *)
Definition target (s : stmt) : obj :=
  match s with
  | SDefault x | SFrom x _ _ | SCopy x _ | SAssign x _ | SDestroy x => x
  end.

(** [Str y1(x); ...; Str yn(x);] *)
Definition copy_each (ys : list obj) (x : obj) : list stmt :=
  (λ y, SCopy y x) <$> ys.

(** The objects [ys] leave their scope, one after the other. *)
Definition destroy_each (ys : list obj) : list stmt := SDestroy <$> ys.

(* ===================================================================== *)
(** * The states of a handle and the invariant of the store               *)
(* ===================================================================== *)

Definition Uninitialized (h : Str) : Prop := ptr h = None ∧ counter h = None.

Definition Initialized (h : Str) : Prop := is_Some (ptr h) ∧ is_Some (counter h).

(** The state a successful [Str_from] leaves: a new array with the copied
    bytes and the terminator, a new counter holding 1, and the object
    pointing to both. *)
Definition constructed (this : obj) (s : list byte) (n : nat) (st : state) : state :=
  let p := fresh (dom (chars st)) in
  let c := fresh (dom (ints st)) in
  mkState (<[p := take n s ++ [x00]]> (chars st))
          (<[c := 1]> (ints st))
          (<[this := mkStr (Some p) (Some c)]> (objs st)).

(** 1 for a handle that holds the counter [c], 0 for any other. *)
Definition holds (c : addr) (h : Str) : nat :=
  if decide (counter h = Some c) then 1%nat else 0%nat.

(** How many objects alive hold the counter [c]. *)
Definition sharers (c : addr) (m : gmap obj Str) : nat :=
  size (filter (λ kv : obj * Str, counter kv.2 = Some c) m).

(** A handle is either uninitialized, or its buffer is an allocated,
    zero-terminated array and its counter holds the number of handles that
    share it. *)
Definition handle_ok (st : state) (h : Str) : Prop :=
  match ptr h, counter h with
  | None, None => True
  | Some p, Some c =>
      (∃ bs w, chars st !! p = Some bs ∧ c_string bs = Some w) ∧
      ints st !! c = Some (Z.of_nat (sharers c (objs st)))
  | _, _ => False
  end.

(** Buffer and counter go together: two handles have the same buffer
    exactly when they have the same counter. *)
Definition paired (h1 h2 : Str) : Prop := ptr h1 = ptr h2 ↔ counter h1 = counter h2.

Record Inv (st : state) : Prop := mkInv {
  inv_handle : ∀ x h, objs st !! x = Some h → handle_ok st h;
  inv_paired : ∀ x y hx hy,
    objs st !! x = Some hx → objs st !! y = Some hy → paired hx hy;
  inv_int : ∀ c v, ints st !! c = Some v → INT_MIN ≤ v ≤ INT_MAX
}.

(** The objects [hs], and the count says no others, share the buffer [p]
    with content [bs] and the counter [c]. *)
Definition sharing (st : state) (p c : addr) (bs : list byte) (hs : list obj) : Prop :=
  NoDup hs ∧
  (∀ y, y ∈ hs → objs st !! y = Some (mkStr (Some p) (Some c))) ∧
  chars st !! p = Some bs ∧
  ints st !! c = Some (Z.of_nat (length hs)) ∧
  Z.of_nat (length hs) ≤ INT_MAX.

(* ===================================================================== *)
(** * Reference notions the properties are measured against               *)
(* ===================================================================== *)

(** Lexicographic order of two byte sequences, bytes compared as
    [unsigned char]; a proper prefix comes first. *)
Fixpoint lex_lt (u v : list byte) : bool :=
  match u, v with
  | _, [] => false
  | [], _ :: _ => true
  | x :: u', y :: v' =>
      if decide (x = y) then lex_lt u' v' else bool_decide (uchar x < uchar y)
  end.

(** What the comparison operators see of a handle: nothing for a null
    [ptr], the C string of its buffer otherwise. *)
Definition key (this : obj) (st : state) : option (option (list byte)) :=
  p ← get_ptr this st;
  match p with
  | None => Some None
  | Some a => bs ← chars st !! a; w ← c_string bs; Some (Some w)
  end.

(** The order on keys: the uninitialized key first, then the C strings in
    lexicographic order. *)
Definition key_lt (k1 k2 : option (list byte)) : bool :=
  match k1, k2 with
  | None, None => false
  | None, Some _ => true
  | Some _, None => false
  | Some u, Some v => lex_lt u v
  end.

(** The bytes of [s] before its first zero byte, all of [s] when it has
    none. *)
Fixpoint before_zero (s : list byte) : list byte :=
  match s with
  | [] => []
  | b :: r => if decide (b = x00) then [] else b :: before_zero r
  end.

(** The number a run of decimal digits denotes. *)
Definition decimal (ds : list byte) : Z :=
  foldl (λ acc d, 10 * acc + (uchar d - 48)) 0 ds.

(** The optional sign of a number, as the bytes that spell it. *)
Inductive sign : Type := NoSign | Plus | Minus.

Definition sign_bytes (s : sign) : list byte :=
  match s with
  | NoSign => []
  | Plus => ["+"%byte]
  | Minus => ["-"%byte]
  end.

Definition signed (s : sign) (v : Z) : Z :=
  match s with
  | Minus => - v
  | _ => v
  end.

(* ===================================================================== *)
(** * Notions for the properties of the whole store                       *)
(* ===================================================================== *)

(** How many objects alive point to the buffer [p]. *)
Definition aliases (p : addr) (m : gmap obj Str) : nat :=
  size (filter (λ kv : obj * Str, ptr kv.2 = Some p) m).

(** [x = y;] and no other statement. *)
Definition is_assignment (s : stmt) : bool :=
  match s with
  | SAssign _ _ => true
  | _ => false
  end.

(** Nothing is allocated that no handle alive points to. *)
Definition all_held (st : state) : Prop :=
  (∀ p, is_Some (chars st !! p) →
        ∃ x h, objs st !! x = Some h ∧ ptr h = Some p) ∧
  (∀ c, is_Some (ints st !! c) →
        ∃ x h, objs st !! x = Some h ∧ counter h = Some c).

(** The number a string denotes for [atoi], as a function of the string
    alone: white space is dropped, a sign is read, and the digits that
    follow are read as far as they go. *)
Fixpoint drop_spaces (w : list byte) : list byte :=
  match w with
  | [] => []
  | b :: r => if isspace b then drop_spaces r else w
  end.

Fixpoint digits_value (acc : Z) (w : list byte) : Z :=
  match w with
  | [] => acc
  | b :: r =>
      if isdigit b then digits_value (10 * acc + (uchar b - 48)) r else acc
  end.

Definition number (w : list byte) : Z :=
  match drop_spaces w with
  | [] => 0
  | b :: r =>
      if decide (b = "-"%byte) then - digits_value 0 r
      else if decide (b = "+"%byte) then digits_value 0 r
      else digits_value 0 (b :: r)
  end.

(* ===================================================================== *)
(** * Running the code on small inputs                                    *)
(* ===================================================================== *)

Example ex_lifecycle :
  (st ← Str_from 0 ["h"; "i"]%byte 2 empty_state;
   st ← Str_copy 1 0 st;
   r2 ← ref_count 0 st;
   st ← Str_destroy 1 st;
   r1 ← ref_count 0 st;
   w ← op_shl [] 0 st;
   st ← Str_destroy 0 st;
   Some (r2, r1, w, st))
  = Some (2, 1, ["h"; "i"]%byte, empty_state).
Proof. reflexivity. Qed.

Example ex_parse :
  (st ← Str_from 0 [" "; "-"; "1"; "2"; "x"]%byte 5 empty_state;
   parse_to_int 0 st) = Some (-12).
Proof. reflexivity. Qed.

Example ex_compare :
  (st ← run [SDefault 0; SFrom 1 ["a"; "b"]%byte 2; SFrom 2 ["a"; "c"]%byte 2]
         empty_state;
   r1 ← op_lt 0 1 st; r2 ← op_lt 1 2 st; r3 ← op_ge 1 2 st; r4 ← op_eq 1 1 st;
   Some [r1; r2; r3; r4])
  = Some [true; true; false; true].
Proof. reflexivity. Qed.

(* ===================================================================== *)
(** * Normal forms of the member functions                                *)
(* ===================================================================== *)

Lemma to_int_in_range v : INT_MIN ≤ v ≤ INT_MAX → to_int v = Some v.
Proof. intros H. unfold to_int. by rewrite decide_True. Qed.

Lemma to_int_Some v w : to_int v = Some w → w = v ∧ INT_MIN ≤ v ≤ INT_MAX.
Proof. unfold to_int. case_decide; intros; by simplify_eq. Qed.

Lemma state_eq st1 st2 :
  chars st1 = chars st2 → ints st1 = ints st2 → objs st1 = objs st2 → st1 = st2.
Proof. destruct st1, st2; simpl; congruence. Qed.

Lemma Str_from_eq x s n st :
  (n ≤ length s)%nat →
  Str_from x s n st = Some (constructed x s n st).
Proof.
  intros Hn. unfold Str_from, memcpy_terminated, new_int, new_chars.
  rewrite decide_True by done. simpl.
  unfold set_ptr, get_counter, store_int, with_objs, with_ints, with_chars.
  simpl. rewrite lookup_insert_eq. simpl. rewrite lookup_insert_eq. simpl.
  rewrite lookup_insert_eq. simpl. unfold constructed.
  by rewrite !insert_insert_eq.
Qed.

Lemma Str_eta h : mkStr (ptr h) (counter h) = h.
Proof. by destruct h. Qed.

Lemma incr_eq c v st :
  ints st !! c = Some v → INT_MIN ≤ v + 1 ≤ INT_MAX →
  incr c st = Some (with_ints <[c := v + 1]> st).
Proof.
  intros Hc Hv. unfold incr, load_int, store_int. rewrite Hc. simpl.
  by rewrite to_int_in_range by done.
Qed.

Lemma decr_eq c v st :
  ints st !! c = Some v → INT_MIN ≤ v - 1 ≤ INT_MAX →
  decr c st = Some (with_ints <[c := v - 1]> st).
Proof.
  intros Hc Hv. unfold decr, load_int, store_int. rewrite Hc. simpl.
  by rewrite to_int_in_range by done.
Qed.

Lemma incr_Some c st st' :
  incr c st = Some st' →
  ∃ v, ints st !! c = Some v ∧ INT_MIN ≤ v + 1 ≤ INT_MAX ∧
       st' = with_ints <[c := v + 1]> st.
Proof.
  unfold incr, load_int, store_int. intros H.
  destruct (ints st !! c) as [v|] eqn:Hc; simpl in H; [|done].
  destruct (to_int (v + 1)) as [w|] eqn:Hw; simpl in H; [|done].
  apply to_int_Some in Hw as [-> ?]. exists v. by simplify_eq.
Qed.

Lemma decr_Some c st st' :
  decr c st = Some st' →
  ∃ v, ints st !! c = Some v ∧ INT_MIN ≤ v - 1 ≤ INT_MAX ∧
       st' = with_ints <[c := v - 1]> st.
Proof.
  unfold decr, load_int, store_int. intros H.
  destruct (ints st !! c) as [v|] eqn:Hc; simpl in H; [|done].
  destruct (to_int (v - 1)) as [w|] eqn:Hw; simpl in H; [|done].
  apply to_int_Some in Hw as [-> ?]. exists v. by simplify_eq.
Qed.

Lemma Str_copy_eq x y h st :
  objs st !! y = Some h →
  Str_copy x y st =
    match counter h with
    | Some c => incr c (with_objs <[x := h]> st)
    | None => Some (with_objs <[x := h]> st)
    end.
Proof.
  intros Hy. unfold Str_copy, get_counter. rewrite Hy. simpl.
  rewrite lookup_insert_eq, Str_eta. done.
Qed.

Lemma decr_objs c st st' : decr c st = Some st' → objs st' = objs st.
Proof. intros (v & _ & _ & ->)%decr_Some. done. Qed.

Lemma Str_assign_eq x y hx hy st :
  objs st !! x = Some hx → objs st !! y = Some hy →
  Str_assign x y st =
    st1 ← match counter hx with
          | Some c => decr c st
          | None => Some st
          end;
    match counter hy with
    | Some c => incr c (with_objs <[x := hy]> st1)
    | None => Some (with_objs <[x := hy]> st1)
    end.
Proof.
  intros Hx Hy. unfold Str_assign, get_counter. rewrite Hx. simpl.
  destruct (match counter hx with Some c => decr c st | None => Some st end)
    as [st1|] eqn:Hst1; simpl; [|done].
  assert (objs st1 = objs st) as Hobjs.
  { destruct (counter hx); [by eapply decr_objs | by simplify_eq]. }
  destruct st1 as [ch1 in1 ob1]. simpl in Hobjs. subst ob1.
  unfold get_ptr, set_ptr, set_counter, with_objs. simpl. rewrite Hy, Hx. simpl.
  destruct (decide (x = y)) as [->|Hne].
  - simplify_eq. repeat (rewrite lookup_insert_eq; simpl).
    rewrite ?insert_insert_eq, ?Str_eta. done.
  - repeat (first [rewrite lookup_insert_eq | rewrite lookup_insert_ne by done
                  | rewrite Hy]; simpl).
    rewrite ?insert_insert_eq, ?Str_eta. done.
Qed.

Lemma Str_destroy_eq x h st :
  objs st !! x = Some h →
  Str_destroy x st =
    match counter h with
    | None => Some (with_objs (delete x) st)
    | Some c =>
        st1 ← decr c st;
        v ← ints st1 !! c;
        if decide (v = 0) then
          st2 ← delete_chars (ptr h) st1;
          st3 ← delete_int c st2;
          Some (with_objs (delete x) st3)
        else Some (with_objs (delete x) st1)
    end.
Proof.
  intros Hx. unfold Str_destroy, get_counter. rewrite Hx. simpl.
  destruct (counter h) as [c|]; [|done].
  destruct (decr c st) as [st1|] eqn:Hst1; simpl; [|done].
  unfold load_int. destruct (ints st1 !! c) as [v|]; simpl; [|done].
  case_decide; [|done].
  unfold get_ptr. rewrite (decr_objs _ _ _ Hst1), Hx. simpl.
  by destruct (delete_chars (ptr h) st1).
Qed.

(* ===================================================================== *)
(** * C strings                                                           *)
(* ===================================================================== *)

Lemma uchar_inj x y : uchar x = uchar y → x = y.
Proof.
  unfold uchar. intros H%(inj Z.of_N).
  pose proof (Byte.of_to_N x) as Hx. pose proof (Byte.of_to_N y) as Hy.
  rewrite H in Hx. congruence.
Qed.

Lemma uchar_nonneg x : 0 ≤ uchar x.
Proof. unfold uchar. lia. Qed.

Lemma uchar_pos x : x ≠ x00 → 0 < uchar x.
Proof.
  intros Hx. pose proof (uchar_nonneg x).
  destruct (decide (uchar x = 0)) as [H0|]; [|lia].
  destruct Hx. by apply uchar_inj.
Qed.

Lemma c_string_terminated s : c_string (s ++ [x00]) = Some (before_zero s).
Proof.
  induction s as [|b s IH]; simpl; [done|].
  case_decide; [done|]. by rewrite IH.
Qed.

Lemma before_zero_id s : x00 ∉ s → before_zero s = s.
Proof.
  induction s as [|b s IH]; simpl; [done|].
  intros [Hb Hs]%not_elem_of_cons. rewrite decide_False by done.
  by rewrite IH.
Qed.

Lemma before_zero_app_zero pre post :
  before_zero (pre ++ x00 :: post) = before_zero pre.
Proof.
  induction pre as [|b pre IH]; simpl; [done|].
  case_decide; [done|]. by rewrite IH.
Qed.

(** [strcmp] orders two arrays as [lex_lt] orders their C strings. *)
Lemma strcmp_bytes_c_string a b u v :
  c_string a = Some u → c_string b = Some v →
  ∃ r, strcmp_bytes a b = Some r ∧
       (r < 0 ↔ lex_lt u v = true) ∧ (r = 0 ↔ u = v) ∧
       (0 < r ↔ lex_lt v u = true).
Proof.
  revert b u v. induction a as [|x a IH]; intros [|y b] u v Ha Hb;
    simpl in *; try done.
  destruct (c_string a) as [u'|] eqn:Hu, (c_string b) as [v'|] eqn:Hv;
    destruct (decide (x = x00)) as [->|Hx], (decide (y = x00)) as [->|Hy];
    simplify_eq/=.
  all: try (exists 0; rewrite ?decide_True by done; repeat split; (lia || done)).
  all: try (exists (uchar x00 - uchar y); pose proof (uchar_pos y Hy);
            rewrite decide_False by done;
            change (uchar x00) with 0; repeat split; (lia || done)).
  all: try (exists (uchar x - uchar x00); pose proof (uchar_pos x Hx);
            rewrite decide_False by done;
            change (uchar x00) with 0; repeat split; (lia || done)).
  destruct (decide (x = y)) as [->|Hxy].
  - destruct (IH b u' v' eq_refl Hv) as (r & Hr & Hlt & Heq & Hgt).
    exists r. rewrite ?decide_True by done.
    split; [done|]. split; [done|]. split; [|done].
    rewrite Heq. split; [by intros ->|by intros [= ->]].
  - exists (uchar x - uchar y).
    assert (uchar x ≠ uchar y) by (intros ?%uchar_inj; done).
    rewrite decide_False by congruence. rewrite !bool_decide_eq_true.
    repeat split; try lia; try congruence.
Qed.

Lemma strcmp_bytes_same a u : c_string a = Some u → strcmp_bytes a a = Some 0.
Proof.
  intros Ha. destruct (strcmp_bytes_c_string a a u u Ha Ha) as (r & -> & _ & Heq & _).
  f_equal. by apply Heq.
Qed.

(* ===================================================================== *)
(** * Construction from content                                           *)
(* ===================================================================== *)

Lemma Str_from_fresh_chars st : chars st !! fresh (dom (chars st)) = None.
Proof. apply not_elem_of_dom, is_fresh. Qed.

Lemma Str_from_fresh_ints st : ints st !! fresh (dom (ints st)) = None.
Proof. apply not_elem_of_dom, is_fresh. Qed.

Lemma constructed_obj st this s n :
  objs (constructed this s n st) !! this =
    Some (mkStr (Some (fresh (dom (chars st)))) (Some (fresh (dom (ints st))))).
Proof. apply lookup_insert_eq. Qed.

Lemma constructed_ref_count st this s n :
  ref_count this (constructed this s n st) = Some 1.
Proof.
  unfold ref_count, get_counter, load_int. rewrite constructed_obj. simpl.
  apply lookup_insert_eq.
Qed.

Lemma constructed_raw_content st this s n :
  raw_content this (constructed this s n st) = Some (take n s ++ [x00]).
Proof.
  unfold raw_content, c_str, get_ptr. rewrite constructed_obj. simpl.
  apply lookup_insert_eq.
Qed.

(** Assigning between two objects that hold the same handle changes
    nothing at all: the counter goes down and up again, the fields are
    rewritten with the values they had. *)
Lemma Str_assign_alias st a b h :
  objs st !! a = Some h → objs st !! b = Some h →
  (∀ c, counter h = Some c → ∃ k, ints st !! c = Some k ∧ INT_MIN < k ≤ INT_MAX) →
  Str_assign a b st = Some st.
Proof.
  intros Ha Hb Hk. rewrite (Str_assign_eq a b h h) by done.
  destruct (counter h) as [c|] eqn:Hc.
  - destruct (Hk c eq_refl) as (k & Hck & Hrange).
    rewrite (decr_eq c k) by (done || lia). simpl.
    rewrite (incr_eq c (k - 1)); [|apply lookup_insert_eq|lia].
    f_equal. apply state_eq; simpl; [done| |by apply insert_id].
    rewrite insert_insert_eq. replace (k - 1 + 1) with k by lia.
    by apply insert_id.
  - simpl. f_equal. apply state_eq; simpl; [done|done|by apply insert_id].
Qed.

(** Two constructions in a row: the second buffer is a new allocation, and
    both objects are there with their own buffers. *)
Lemma Str_from_twice st a b s1 n1 s2 n2 :
  a ≠ b → (n1 ≤ length s1)%nat → (n2 ≤ length s2)%nat →
  ∃ st1 st2 p1 p2,
    Str_from a s1 n1 st = Some st1 ∧ Str_from b s2 n2 st1 = Some st2 ∧
    p1 ≠ p2 ∧
    get_ptr a st2 = Some (Some p1) ∧ get_ptr b st2 = Some (Some p2) ∧
    chars st2 !! p1 = Some (take n1 s1 ++ [x00]) ∧
    chars st2 !! p2 = Some (take n2 s2 ++ [x00]).
Proof.
  intros Hab H1 H2.
  eexists _, _, (fresh (dom (chars st))), _.
  split; [by apply Str_from_eq|]. split; [by apply Str_from_eq|].
  simpl. set (p1 := fresh (dom (chars st))).
  set (p2 := fresh (dom (<[p1:=take n1 s1 ++ [x00]]> (chars st)))).
  assert (p1 ≠ p2) as Hp.
  { intros Heq. apply (is_fresh (dom (<[p1:=take n1 s1 ++ [x00]]> (chars st)))).
    fold p2. rewrite <- Heq. apply elem_of_dom. rewrite lookup_insert_eq. eauto. }
  split; [done|]. unfold get_ptr. simpl.
  rewrite lookup_insert_ne, !lookup_insert_eq by done.
  rewrite lookup_insert_ne, lookup_insert_eq by done. done.
Qed.

Lemma op_eq_same x h st : objs st !! x = Some h → op_eq x x st = Some true.
Proof.
  intros Hx. unfold op_eq, get_ptr. rewrite Hx. simpl.
  by rewrite decide_True.
Qed.

Lemma op_eq_strcmp a b p q st :
  get_ptr a st = Some (Some p) → get_ptr b st = Some (Some q) →
  strcmp p q st = Some 0 →
  op_eq a b st = Some true ∧ op_ne a b st = Some false.
Proof.
  intros Ha Hb Hcmp. unfold op_eq, op_ne. rewrite Ha, Hb. simpl.
  case_decide; [done|]. rewrite Hcmp. done.
Qed.

(* ===================================================================== *)
(** * Counting the handles that share a counter                           *)
(* ===================================================================== *)

Section sharers.
Implicit Types (m : gmap obj Str) (h : Str) (c : addr) (x : obj).

Lemma sharers_insert_fresh c x h m :
  m !! x = None → sharers c (<[x:=h]> m) = (holds c h + sharers c m)%nat.
Proof.
  intros Hx. unfold sharers, holds. rewrite map_filter_insert. simpl.
  case_decide.
  - rewrite map_size_insert_None; [done|].
    apply map_lookup_filter_None. by left.
  - by rewrite delete_id.
Qed.

Lemma sharers_insert c x h m :
  sharers c (<[x:=h]> m) = (holds c h + sharers c (delete x m))%nat.
Proof.
  rewrite <- insert_delete_eq. apply sharers_insert_fresh, lookup_delete_eq.
Qed.

Lemma sharers_delete c x h m :
  m !! x = Some h → sharers c m = (holds c h + sharers c (delete x m))%nat.
Proof.
  intros Hx. rewrite <- (insert_delete_id m x h) at 1 by done.
  apply sharers_insert_fresh, lookup_delete_eq.
Qed.

Lemma sharers_member c x h m :
  m !! x = Some h → counter h = Some c → (1 ≤ sharers c m)%nat.
Proof.
  intros Hx Hc. rewrite (sharers_delete c x h m Hx). unfold holds.
  rewrite decide_True by done. lia.
Qed.

Lemma sharers_zero c x h m :
  sharers c m = 0%nat → m !! x = Some h → counter h ≠ Some c.
Proof.
  intros H0 Hx Hc. pose proof (sharers_member c x h m Hx Hc). lia.
Qed.

Lemma sharers_unused c m :
  (∀ x h, m !! x = Some h → counter h ≠ Some c) → sharers c m = 0%nat.
Proof.
  intros Hm. unfold sharers. apply map_size_empty_iff, map_empty_filter.
  intros x h Hx. simpl. by eapply Hm.
Qed.
End sharers.

(* ===================================================================== *)
(** * The invariant holds in every state a program reaches                *)
(* ===================================================================== *)

Lemma handle_ok_cases st h :
  handle_ok st h →
  Uninitialized h ∨
  ∃ p c bs w, ptr h = Some p ∧ counter h = Some c ∧
    chars st !! p = Some bs ∧ c_string bs = Some w ∧
    ints st !! c = Some (Z.of_nat (sharers c (objs st))).
Proof.
  unfold handle_ok, Uninitialized. destruct h as [[p|] [c|]]; simpl; try done.
  - intros [(bs & w & ? & ?) ?]. right. by exists p, c, bs, w.
  - by left.
Qed.

Lemma handle_ok_transfer st st' h :
  handle_ok st h →
  (∀ p, ptr h = Some p → chars st' !! p = chars st !! p) →
  (∀ c, counter h = Some c →
        ints st !! c = Some (Z.of_nat (sharers c (objs st))) →
        ints st' !! c = Some (Z.of_nat (sharers c (objs st')))) →
  handle_ok st' h.
Proof.
  unfold handle_ok. destruct h as [[p|] [c|]]; simpl; try done.
  intros [(bs & w & Hp & Hw) Hc] Hchars Hints. split.
  - exists bs, w. by rewrite Hchars.
  - by apply Hints.
Qed.

Lemma paired_refl h : paired h h.
Proof. by unfold paired. Qed.

Lemma paired_sym h1 h2 : paired h1 h2 → paired h2 h1.
Proof. unfold paired. intros [H1 H2]. split; intros ?; symmetry; auto. Qed.

Lemma paired_insert (m : gmap obj Str) x h :
  (∀ y hy, y ≠ x → m !! y = Some hy → paired h hy) →
  (∀ y z hy hz, m !! y = Some hy → m !! z = Some hz → paired hy hz) →
  ∀ y z hy hz,
    <[x:=h]> m !! y = Some hy → <[x:=h]> m !! z = Some hz → paired hy hz.
Proof.
  intros Hnew Hold y z hy hz.
  rewrite !lookup_insert. repeat case_decide; intros; simplify_eq.
  - apply paired_refl.
  - by eapply Hnew.
  - eapply paired_sym; by eapply Hnew.
  - by eapply Hold.
Qed.

Lemma paired_uninitialized st h hy :
  handle_ok st hy → Uninitialized h → paired h hy.
Proof.
  intros Hok [Hp Hc]. unfold paired. rewrite Hp, Hc.
  destruct (handle_ok_cases _ _ Hok) as [[-> ->]|(p & c & _ & _ & -> & -> & _)];
    done.
Qed.

Lemma Inv_empty : Inv empty_state.
Proof. split; intros *; simpl; by rewrite lookup_empty. Qed.

Lemma Str_default_Inv st x st' :
  Inv st → objs st !! x = None → Str_default x st = Some st' → Inv st'.
Proof.
  intros [Hok Hpair Hint] Hx [= <-]. split; simpl.
  - intros y hy. rewrite lookup_insert. case_decide; intros; simplify_eq.
    + done.
    + eapply handle_ok_transfer; [by eapply Hok|done|]. simpl.
      intros c _ Hc. by rewrite sharers_insert_fresh.
  - apply paired_insert; [|done]. intros y hy _ Hy.
    eapply paired_uninitialized; [by eapply Hok|done].
  - done.
Qed.

Lemma handle_ok_ptr st h p :
  handle_ok st h → ptr h = Some p → is_Some (chars st !! p).
Proof.
  intros [[? _]|(? & ? & ? & ? & ? & ? & ? & ? & ?)]%handle_ok_cases ?;
    simplify_eq; eauto.
Qed.

Lemma handle_ok_counter st h c :
  handle_ok st h → counter h = Some c →
  ints st !! c = Some (Z.of_nat (sharers c (objs st))).
Proof.
  intros [[_ ?]|(? & ? & ? & ? & ? & ? & ? & ? & ?)]%handle_ok_cases ?;
    simplify_eq; eauto.
Qed.

Lemma handle_ok_initialized st h c :
  handle_ok st h → counter h = Some c → ∃ p, ptr h = Some p.
Proof.
  intros [[_ ?]|(? & ? & ? & ? & ? & ? & ? & ? & ?)]%handle_ok_cases ?;
    simplify_eq; eauto.
Qed.

Lemma Str_from_inv x s n st st' :
  Str_from x s n st = Some st' →
  (n ≤ length s)%nat ∧ st' = constructed x s n st.
Proof.
  intros H. destruct (decide (n ≤ length s)%nat) as [Hn|Hn].
  - rewrite Str_from_eq in H by done. by simplify_eq.
  - unfold Str_from, memcpy_terminated in H. simpl in H.
    by rewrite decide_False in H.
Qed.

Lemma Str_from_Inv st x s n st' :
  Inv st → objs st !! x = None → Str_from x s n st = Some st' → Inv st'.
Proof.
  intros [Hok Hpair Hint] Hx [Hn ->]%Str_from_inv.
  assert (∀ y hy, objs st !! y = Some hy →
            ptr hy ≠ Some (fresh (dom (chars st))) ∧
            counter hy ≠ Some (fresh (dom (ints st)))) as Hfresh.
  { intros y hy Hy. split; intros Heq.
    - destruct (handle_ok_ptr _ _ _ (Hok _ _ Hy) Heq) as [? Hp].
      by rewrite Str_from_fresh_chars in Hp.
    - pose proof (handle_ok_counter _ _ _ (Hok _ _ Hy) Heq) as Hc.
      by rewrite Str_from_fresh_ints in Hc. }
  split; unfold constructed; simpl.
  - intros y hy. rewrite lookup_insert. case_decide; intros; simplify_eq.
    + unfold handle_ok. simpl. rewrite !lookup_insert_eq. split.
      * eexists _, _. split; [done|]. apply c_string_terminated.
      * rewrite sharers_insert_fresh by done. unfold holds. simpl.
        rewrite decide_True by done. rewrite sharers_unused; [done|].
        intros z hz Hz. by apply (Hfresh z hz).
    + destruct (Hfresh y hy) as [Hp Hc]; [done|].
      eapply handle_ok_transfer; [by eapply Hok| |]; simpl.
      * intros p Hp'. rewrite lookup_insert_ne; [done|congruence].
      * intros c Hc' Hcount. rewrite lookup_insert_ne by congruence.
        rewrite sharers_insert_fresh by done. unfold holds. simpl.
        rewrite decide_False by congruence. done.
  - apply paired_insert; [|done]. intros y hy _ Hy.
    destruct (Hfresh y hy Hy) as [Hp Hc]. unfold paired. simpl.
    split; intros Heq; by destruct Hp || destruct Hc.
  - intros c v. rewrite lookup_insert. case_decide; intros; simplify_eq; eauto.
    unfold INT_MIN, INT_MAX. lia.
Qed.

Lemma Str_copy_Inv st x y st' :
  Inv st → objs st !! x = None → Str_copy x y st = Some st' → Inv st'.
Proof.
  intros [Hok Hpair Hint] Hx Hcopy.
  destruct (objs st !! y) as [h|] eqn:Hy; [|by unfold Str_copy in Hcopy; rewrite Hy in Hcopy].
  rewrite (Str_copy_eq x y h) in Hcopy by done.
  assert (∀ z hz, objs st !! z = Some hz → paired h hz) as Hph by eauto.
  destruct (counter h) as [c|] eqn:Hc.
  - apply incr_Some in Hcopy as (v & Hv & Hrange & ->).
    pose proof (handle_ok_counter _ _ _ (Hok _ _ Hy) Hc) as Hcount.
    simpl in Hv.
    assert (v = Z.of_nat (sharers c (objs st))) as Hveq by congruence.
    subst v.
    assert (∀ z hz, objs st !! z = Some hz →
              handle_ok (with_ints <[c:=Z.of_nat (sharers c (objs st)) + 1]>
                           (with_objs <[x:=h]> st)) hz) as Hall.
    { intros z hz Hz. eapply handle_ok_transfer; [by eapply Hok|done|]. simpl.
      intros c' _ Hc'. rewrite sharers_insert_fresh by done. unfold holds.
      rewrite lookup_insert, Hc. repeat case_decide; simplify_eq.
      - f_equal. lia.
      - done. }
    split; simpl.
    + intros z hz. rewrite lookup_insert. case_decide; intros; simplify_eq; eauto.
    + apply paired_insert; [|done]. eauto.
    + intros c' v'. rewrite lookup_insert. case_decide; intros; simplify_eq; eauto.
  - simplify_eq. split; simpl.
    + intros z hz Hz.
      assert (objs st !! z = Some hz ∨ hz = h) as [Hz' | ->].
      { rewrite lookup_insert in Hz. case_decide; simplify_eq; eauto. }
      all: eapply handle_ok_transfer; [by eapply Hok|done|]; simpl.
      all: intros c' _ Hc'; rewrite sharers_insert_fresh by done.
      all: unfold holds; by rewrite Hc, decide_False.
    + apply paired_insert; [|done]. eauto.
    + done.
Qed.

Lemma Str_assign_alive x y st st' :
  Str_assign x y st = Some st' →
  ∃ hx hy, objs st !! x = Some hx ∧ objs st !! y = Some hy.
Proof.
  unfold Str_assign, get_counter. intros H.
  destruct (objs st !! x) as [hx|] eqn:Hx; simpl in H; [|done].
  destruct (match counter hx with Some c => decr c st | None => Some st end)
    as [st1|] eqn:Hst1; simpl in H; [|done].
  assert (objs st1 = objs st) as Hobjs.
  { destruct (counter hx); [by eapply decr_objs | by simplify_eq]. }
  unfold get_ptr in H. rewrite Hobjs in H.
  destruct (objs st !! y) as [hy|] eqn:Hy; simpl in H; [|done]. eauto.
Qed.

Lemma Str_assign_Inv st x y st' :
  Inv st → Str_assign x y st = Some st' → Inv st'.
Proof.
  intros [Hok Hpair Hint] Hassign.
  destruct (Str_assign_alive _ _ _ _ Hassign) as (hx & hy & Hx & Hy).
  rewrite (Str_assign_eq x y hx hy) in Hassign by done.
  assert (chars st' = chars st ∧ objs st' = <[x:=hy]> (objs st) ∧
          (∀ c, ints st !! c = Some (Z.of_nat (sharers c (objs st))) →
                ints st' !! c = Some (Z.of_nat (sharers c (<[x:=hy]> (objs st))))) ∧
          (∀ c v, ints st' !! c = Some v → INT_MIN ≤ v ≤ INT_MAX))
    as (Hchars & Hobjs & Hints & Hint').
  { assert (∀ c, sharers c (<[x:=hy]> (objs st)) + holds c hx
                 = sharers c (objs st) + holds c hy)%nat as Hsh.
    { intros c. rewrite sharers_insert, (sharers_delete c x hx (objs st)) by done. lia. }
    unfold holds in Hsh.
    destruct (counter hx) as [c1|] eqn:Hc1, (counter hy) as [c2|] eqn:Hc2;
      simpl in Hassign.
    - destruct (decr c1 st) as [st1|] eqn:Hst1; simpl in Hassign; [|done].
      apply decr_Some in Hst1 as (v1 & Hv1 & Hr1 & ->).
      apply incr_Some in Hassign as (v2 & Hv2 & Hr2 & ->). simpl in *.
      repeat split.
      + intros c Hc. specialize (Hsh c).
        rewrite lookup_insert in Hv2. rewrite !lookup_insert.
        repeat case_decide; simplify_eq; rewrite ?Hc; f_equal; lia.
      + revert H. rewrite !lookup_insert.
        repeat case_decide; intros; simplify_eq; try lia; by eapply Hint.
      + revert H. rewrite !lookup_insert.
        repeat case_decide; intros; simplify_eq; try lia; by eapply Hint.
    - destruct (decr c1 st) as [st1|] eqn:Hst1; simpl in Hassign; [|done].
      apply decr_Some in Hst1 as (v1 & Hv1 & Hr1 & ->). simplify_eq. simpl.
      repeat split.
      + intros c Hc. specialize (Hsh c). rewrite !lookup_insert.
        repeat case_decide; simplify_eq; rewrite ?Hc; f_equal; lia.
      + revert H. rewrite !lookup_insert.
        repeat case_decide; intros; simplify_eq; try lia; by eapply Hint.
      + revert H. rewrite !lookup_insert.
        repeat case_decide; intros; simplify_eq; try lia; by eapply Hint.
    - apply incr_Some in Hassign as (v2 & Hv2 & Hr2 & ->). simpl in *.
      repeat split.
      + intros c Hc. specialize (Hsh c). rewrite !lookup_insert.
        repeat case_decide; simplify_eq; rewrite ?Hc; f_equal; lia.
      + revert H. rewrite !lookup_insert.
        repeat case_decide; intros; simplify_eq; try lia; by eapply Hint.
      + revert H. rewrite !lookup_insert.
        repeat case_decide; intros; simplify_eq; try lia; by eapply Hint.
    - simplify_eq. simpl. repeat split; [|by eapply Hint..].
      intros c Hc. specialize (Hsh c).
      repeat case_decide; simplify_eq; rewrite ?Hc; f_equal; lia. }
  assert (∀ z hz, objs st !! z = Some hz → handle_ok st' hz) as Hall.
  { intros z hz Hz. eapply handle_ok_transfer; [by eapply Hok| |].
    - by rewrite Hchars.
    - rewrite Hobjs. eauto. }
  split; rewrite ?Hobjs.
  - intros z hz. rewrite lookup_insert. case_decide; intros; simplify_eq; eauto.
  - apply paired_insert; [|done]. eauto.
  - done.
Qed.

Lemma Str_destroy_alive x st st' :
  Str_destroy x st = Some st' → ∃ h, objs st !! x = Some h.
Proof.
  unfold Str_destroy, get_counter. intros H.
  destruct (objs st !! x) as [h|]; [eauto|done].
Qed.

(** What the destructor does to the free store and to the objects, in a
    state where the invariant holds: the last sharer frees buffer and
    counter, any other leaves both and takes one off the count. *)
Lemma Str_destroy_Inv_eq st x h :
  Inv st → objs st !! x = Some h →
  Str_destroy x st =
    match ptr h, counter h with
    | Some p, Some c =>
        if decide (sharers c (objs st) = 1%nat) then
          Some (mkState (delete p (chars st)) (delete c (ints st))
                        (delete x (objs st)))
        else
          Some (mkState (chars st)
                        (<[c := Z.of_nat (sharers c (objs st)) - 1]> (ints st))
                        (delete x (objs st)))
    | _, _ => Some (with_objs (delete x) st)
    end.
Proof.
  intros [Hok Hpair Hint] Hx. rewrite (Str_destroy_eq x h) by done.
  destruct (handle_ok_cases _ _ (Hok _ _ Hx))
    as [[-> ->]|(p & c & bs & w & -> & Hc & Hp & _ & Hcount)]; [done|].
  rewrite Hc. pose proof (sharers_member c x h _ Hx Hc) as Hpos.
  pose proof (Hint _ _ Hcount) as Hrange.
  rewrite (decr_eq c _ st Hcount) by (unfold INT_MIN, INT_MAX in *; lia).
  simpl. rewrite lookup_insert_eq. simpl.
  repeat case_decide; try lia; [|done].
  rewrite Hp. simpl. unfold delete_int. simpl. rewrite lookup_insert_eq. simpl.
  unfold with_objs, with_ints, with_chars. simpl.
  by rewrite delete_insert_eq.
Qed.

Lemma sharers_two c x y hx hy (m : gmap obj Str) :
  x ≠ y → m !! x = Some hx → m !! y = Some hy →
  counter hx = Some c → counter hy = Some c → (2 ≤ sharers c m)%nat.
Proof.
  intros Hxy Hx Hy Hcx Hcy. rewrite (sharers_delete c x hx m Hx).
  assert (delete x m !! y = Some hy) as Hy' by by rewrite lookup_delete_ne.
  pose proof (sharers_member c y hy _ Hy' Hcy). unfold holds.
  rewrite decide_True by done. lia.
Qed.

Lemma Str_destroy_Inv st x st' :
  Inv st → Str_destroy x st = Some st' → Inv st'.
Proof.
  intros HInv Hdestroy. pose proof HInv as [Hok Hpair Hint].
  destruct (Str_destroy_alive _ _ _ Hdestroy) as [h Hx].
  rewrite (Str_destroy_Inv_eq st x h) in Hdestroy by done.
  assert (∀ z hz, delete x (objs st) !! z = Some hz →
            z ≠ x ∧ objs st !! z = Some hz) as Hrest.
  { intros z hz. rewrite lookup_delete. case_decide; [done|].
    intros; split; [congruence|done]. }
  assert (∀ c, sharers c (objs st) = (holds c h + sharers c (delete x (objs st)))%nat)
    as Hsh by (intros c; by apply sharers_delete).
  unfold holds in Hsh.
  destruct (handle_ok_cases _ _ (Hok _ _ Hx))
    as [[Hp Hc]|(p & c & bs & w & Hp & Hc & Hbs & _ & Hcount)];
    rewrite Hp, ?Hc in Hdestroy.
  - simplify_eq. split; simpl.
    + intros z hz [Hzx Hz]%Hrest.
      eapply handle_ok_transfer; [by eapply Hok|done|]. simpl.
      intros c' _ Hc'. specialize (Hsh c'). rewrite Hc in Hsh.
      rewrite decide_False in Hsh by done. rewrite Hc'. f_equal. lia.
    + intros z1 z2 h1 h2 [_ ?]%Hrest [_ ?]%Hrest. eauto.
    + done.
  - case_decide as Hlast; simplify_eq; split; simpl.
    + intros z hz [Hzx Hz]%Hrest.
      assert (counter hz ≠ Some c) as Hcz.
      { intros Hcz. pose proof (sharers_two c z x hz h _ Hzx Hz Hx Hcz Hc). lia. }
      assert (ptr hz ≠ Some p) as Hpz.
      { intros Hpz. apply Hcz. rewrite <- Hc. apply (Hpair z x); [done..|].
        congruence. }
      eapply handle_ok_transfer; [by eapply Hok| |]; simpl.
      * intros p' Hp'. rewrite lookup_delete_ne; [done|congruence].
      * intros c' Hc' Hcount'. rewrite lookup_delete_ne by congruence.
        specialize (Hsh c'). rewrite Hc in Hsh.
        rewrite decide_False in Hsh by congruence. rewrite Hcount'. f_equal. lia.
    + intros z1 z2 h1 h2 [_ ?]%Hrest [_ ?]%Hrest. eauto.
    + intros c' v'. rewrite lookup_delete. case_decide; [done|]. eauto.
    + intros z hz [Hzx Hz]%Hrest.
      eapply handle_ok_transfer; [by eapply Hok|done|]. simpl.
      intros c' Hc' Hcount'. specialize (Hsh c'). rewrite Hc in Hsh.
      rewrite lookup_insert. destruct (decide (c = c')) as [->|Hne].
      * rewrite decide_True in Hsh by done. f_equal. lia.
      * rewrite decide_False in Hsh by congruence. rewrite Hcount'. f_equal. lia.
    + intros z1 z2 h1 h2 [_ ?]%Hrest [_ ?]%Hrest. eauto.
    + intros c' v'. rewrite lookup_insert. case_decide; intros; simplify_eq; eauto.
      pose proof (Hint _ _ Hcount).
      pose proof (sharers_member _ x h _ Hx Hc). unfold INT_MIN, INT_MAX in *. lia.
Qed.

Lemma alive_false x st : alive x st = false → objs st !! x = None.
Proof.
  unfold alive. intros H%bool_decide_eq_false. by apply eq_None_not_Some.
Qed.

Lemma exec_Inv s st st' : Inv st → exec s st = Some st' → Inv st'.
Proof.
  intros HInv. destruct s as [x|x str n|x y|x y|x]; simpl;
    try (destruct (alive x st) eqn:Hx; [done|apply alive_false in Hx]).
  - by apply Str_default_Inv.
  - by apply Str_from_Inv.
  - by apply Str_copy_Inv.
  - by apply Str_assign_Inv.
  - by apply Str_destroy_Inv.
Qed.

Lemma run_Inv prog st st' : Inv st → run prog st = Some st' → Inv st'.
Proof.
  revert st. induction prog as [|s prog IH]; intros st HInv Hrun; simpl in *.
  - by simplify_eq.
  - destruct (exec s st) as [st1|] eqn:Hexec; simpl in Hrun; [|done].
    eapply IH; [|done]. by eapply exec_Inv.
Qed.

(** Every state a program reaches from the empty store satisfies the
    invariant. *)
Lemma reachable_Inv prog st : run prog empty_state = Some st → Inv st.
Proof. apply run_Inv, Inv_empty. Qed.

(* ===================================================================== *)
(** * What a statement leaves alone                                       *)
(* ===================================================================== *)

Lemma Str_assign_frame x y st st' :
  Str_assign x y st = Some st' →
  ∃ hy, objs st !! y = Some hy ∧ chars st' = chars st ∧
        dom (ints st') = dom (ints st) ∧ objs st' = <[x:=hy]> (objs st).
Proof.
  intros Hassign.
  destruct (Str_assign_alive _ _ _ _ Hassign) as (hx & hy & Hx & Hy).
  rewrite (Str_assign_eq x y hx hy) in Hassign by done.
  exists hy. split; [done|].
  assert (∀ c st0 st1, decr c st0 = Some st1 →
            chars st1 = chars st0 ∧ dom (ints st1) = dom (ints st0) ∧
            objs st1 = objs st0) as Hdecr.
  { intros c st0 st1 (v & Hv & _ & ->)%decr_Some. simpl. repeat split.
    apply dom_insert_lookup_L. eauto. }
  assert (∀ c st0 st1, incr c st0 = Some st1 →
            chars st1 = chars st0 ∧ dom (ints st1) = dom (ints st0) ∧
            objs st1 = objs st0) as Hincr.
  { intros c st0 st1 (v & Hv & _ & ->)%incr_Some. simpl. repeat split.
    apply dom_insert_lookup_L. eauto. }
  destruct (match counter hx with Some c => decr c st | None => Some st end)
    as [st1|] eqn:Hst1; simpl in Hassign; [|done].
  assert (chars st1 = chars st ∧ dom (ints st1) = dom (ints st) ∧
          objs st1 = objs st) as (Hc1 & Hi1 & Ho1).
  { destruct (counter hx); [by eapply Hdecr|by simplify_eq]. }
  destruct (counter hy).
  - apply Hincr in Hassign as (-> & -> & ->). simpl. by rewrite Hc1, Hi1, Ho1.
  - simplify_eq. simpl. by rewrite Hc1, Hi1, Ho1.
Qed.

(** A statement does not touch the objects it does not name as its target,
    nor the buffers they point to. *)
Lemma exec_frame s st st' x h :
  Inv st → exec s st = Some st' → target s ≠ x → objs st !! x = Some h →
  objs st' !! x = Some h ∧ ∀ p, ptr h = Some p → chars st' !! p = chars st !! p.
Proof.
  intros HInv Hexec Hne Hx. pose proof HInv as [Hok Hpair Hint].
  destruct s as [t|t str n|t y|t y|t]; simpl in *;
    try (destruct (alive t st) eqn:Ht; [done|apply alive_false in Ht]).
  - injection Hexec as <-. simpl. by rewrite lookup_insert_ne.
  - apply Str_from_inv in Hexec as [_ ->]. unfold constructed. simpl.
    rewrite lookup_insert_ne by done. split; [done|]. intros p Hp.
    rewrite lookup_insert_ne; [done|]. intros <-.
    destruct (handle_ok_ptr _ _ _ (Hok _ _ Hx) Hp) as [? Hbs].
    by rewrite Str_from_fresh_chars in Hbs.
  - destruct (objs st !! y) as [hy|] eqn:Hy;
      [|by unfold Str_copy in Hexec; rewrite Hy in Hexec].
    rewrite (Str_copy_eq t y hy) in Hexec by done.
    destruct (counter hy).
    + apply incr_Some in Hexec as (v & _ & _ & ->). simpl.
      by rewrite lookup_insert_ne.
    + simplify_eq. simpl. by rewrite lookup_insert_ne.
  - apply Str_assign_frame in Hexec as (hy & _ & -> & _ & ->).
    by rewrite lookup_insert_ne.
  - destruct (Str_destroy_alive _ _ _ Hexec) as [ht Ht].
    rewrite (Str_destroy_Inv_eq st t ht) in Hexec by done.
    destruct (handle_ok_cases _ _ (Hok _ _ Ht))
      as [[Hp Hc]|(p & c & bs & w & Hp & Hc & Hbs & _ & Hcount)];
      rewrite Hp, ?Hc in Hexec.
    + simplify_eq. simpl. by rewrite lookup_delete_ne.
    + case_decide as Hlast; simplify_eq; simpl;
        rewrite lookup_delete_ne by done; (split; [done|]); [|done].
      intros p' Hp'. rewrite lookup_delete_ne; [done|]. intros <-.
      assert (counter h = Some c) as Hch.
      { rewrite <- Hc. apply (Hpair x t); [done..|]. congruence. }
      pose proof (sharers_two c x t h ht _ ltac:(congruence) Hx Ht Hch Hc). lia.
Qed.

Lemma run_frame prog st st' x h :
  Inv st → run prog st = Some st' → Forall (λ s, target s ≠ x) prog →
  objs st !! x = Some h →
  objs st' !! x = Some h ∧ ∀ p, ptr h = Some p → chars st' !! p = chars st !! p.
Proof.
  revert st. induction prog as [|s prog IH]; intros st HInv Hrun Hall Hx;
    simpl in *.
  - by simplify_eq.
  - destruct (exec s st) as [st1|] eqn:Hexec; simpl in Hrun; [|done].
    apply Forall_cons_1 in Hall as [Hs Hall].
    destruct (exec_frame s st st1 x h) as [Hx1 Hchars1]; [done..|].
    destruct (IH st1) as [Hx' Hchars']; [by eapply exec_Inv|done..|].
    split; [done|]. intros p Hp. rewrite Hchars', Hchars1; done.
Qed.

(* ===================================================================== *)
(** * Copy assignment                                                     *)
(* ===================================================================== *)

(** C1: a copy assignment takes one off the count of the buffer its target
    held, and when that count reaches 0 the buffer and its counter should
    be freed at once. The code takes one off the count and stops there:
    with [Str a("x", 1); Str b("y", 1); a = b;] the buffer of "x" is left
    allocated with a count of 0 and no handle pointing to it, where the
    destructor, run on [a] in the same state, frees both the buffer and the
    counter. *)
Theorem assign_leaves_dead_buffer_allocated :
  ∃ st st' st'',
    run [SFrom 0 ["x"]%byte 1; SFrom 1 ["y"]%byte 1] empty_state = Some st ∧
    c_str 0 st = Some (Some 0%nat) ∧ get_counter 0 st = Some (Some 0%nat) ∧
    ref_count 0 st = Some 1 ∧
    Str_assign 0 1 st = Some st' ∧
    ints st' !! 0%nat = Some 0 ∧
    chars st' !! 0%nat = Some ["x"; x00]%byte ∧
    map_Forall (λ _ h, ptr h ≠ Some 0%nat ∧ counter h ≠ Some 0%nat) (objs st') ∧
    Str_destroy 0 st = Some st'' ∧
    ints st'' !! 0%nat = None ∧ chars st'' !! 0%nat = None.
Proof.
  eexists _, _, _. split; [reflexivity|].
  repeat (split; [reflexivity|]).
  split; [|repeat (split; [reflexivity|]); reflexivity].
  intros z h. cbn. rewrite !lookup_insert.
  repeat case_decide; intros; simplify_eq; done.
Qed.

Lemma Inv_same_buffer st a b ha hb :
  Inv st → objs st !! a = Some ha → objs st !! b = Some hb →
  ptr ha = ptr hb → ha = hb.
Proof.
  intros [_ Hpair _] Ha Hb Hp. pose proof (Hpair a b ha hb Ha Hb) as [Hc _].
  specialize (Hc Hp). destruct ha, hb; simpl in *; congruence.
Qed.

(** C2: in every state a program reaches, assigning [a = b] between two
    objects that already point to the same buffer (or are both
    uninitialized), and so also assigning an object to itself, succeeds and
    leaves the reference counts and the contents as they were; no buffer
    and no counter is freed, and no handle changes: the state after the
    assignment is the state before it. *)
Theorem assign_between_aliases_is_identity prog st a b :
  run prog empty_state = Some st →
  alive a st = true → alive b st = true →
  c_str a st = c_str b st →
  ∃ st',
    Str_assign a b st = Some st' ∧
    ref_count a st' = ref_count a st ∧ ref_count b st' = ref_count b st ∧
    raw_content a st' = raw_content a st ∧
    chars st' = chars st ∧ ints st' = ints st ∧ objs st' = objs st.
Proof.
  intros HInv%reachable_Inv [ha Ha]%bool_decide_eq_true [hb Hb]%bool_decide_eq_true.
  unfold c_str, get_ptr. rewrite Ha, Hb. intros [= Hp].
  assert (ha = hb) as -> by by eapply Inv_same_buffer.
  exists st. split; [|done].
  apply (Str_assign_alias st a b hb); [done..|].
  intros c Hc. destruct HInv as [Hok _ Hint].
  pose proof (handle_ok_counter _ _ _ (Hok _ _ Hb) Hc) as Hcount.
  pose proof (sharers_member c b hb _ Hb Hc).
  pose proof (Hint _ _ Hcount). eexists. split; [done|].
  unfold INT_MIN in *. lia.
Qed.

Lemma assign_between_aliases_witness :
  ∃ st1 st2,
    run [SFrom 0 ["a"; "b"; "c"]%byte 3] empty_state = Some st1 ∧
    alive 0 st1 = true ∧
    ref_count 0 st1 = Some 1 ∧
    (∃ st',
       Str_assign 0 0 st1 = Some st' ∧
       ref_count 0 st' = ref_count 0 st1 ∧ ref_count 0 st' = ref_count 0 st1 ∧
       raw_content 0 st' = raw_content 0 st1 ∧
       chars st' = chars st1 ∧ ints st' = ints st1 ∧ objs st' = objs st1) ∧
    run [SFrom 0 ["a"; "b"; "c"]%byte 3; SCopy 1 0] empty_state = Some st2 ∧
    alive 0 st2 = true ∧ alive 1 st2 = true ∧ c_str 0 st2 = c_str 1 st2 ∧
    ref_count 0 st2 = Some 2 ∧ ref_count 1 st2 = Some 2 ∧
    (∃ st',
       Str_assign 0 1 st2 = Some st' ∧
       ref_count 0 st' = ref_count 0 st2 ∧ ref_count 1 st' = ref_count 1 st2 ∧
       raw_content 0 st' = raw_content 0 st2 ∧
       chars st' = chars st2 ∧ ints st' = ints st2 ∧ objs st' = objs st2).
Proof.
  eexists _, _.
  split; [reflexivity|]. split; [reflexivity|]. split; [reflexivity|].
  split.
  { apply (assign_between_aliases_is_identity
             [SFrom 0 ["a"; "b"; "c"]%byte 3] _ 0%nat 0%nat); reflexivity. }
  split; [reflexivity|]. do 5 (split; [reflexivity|]).
  apply (assign_between_aliases_is_identity
           [SFrom 0 ["a"; "b"; "c"]%byte 3; SCopy 1 0] _ 0%nat 1%nat); reflexivity.
Defined.

(* ===================================================================== *)
(** * The life of a shared buffer                                         *)
(* ===================================================================== *)

Lemma run_cons s prog st : run (s :: prog) st = exec s st ≫= run prog.
Proof. done. Qed.

Lemma run_app prog1 prog2 st :
  run (prog1 ++ prog2) st = run prog1 st ≫= run prog2.
Proof.
  revert st. induction prog1 as [|s prog1 IH]; intros st; [done|].
  rewrite <- app_comm_cons, !run_cons. destruct (exec s st); simpl; [apply IH|done].
Qed.

Lemma sharing_perm st p c bs hs hs' :
  hs ≡ₚ hs' → sharing st p c bs hs → sharing st p c bs hs'.
Proof.
  intros Hperm (Hnd & Hobjs & Hp & Hc & Hmax). unfold sharing.
  rewrite <- Hperm. repeat split; try done.
  intros y Hy. apply Hobjs. by rewrite Hperm.
Qed.

Lemma sharing_ref_count st p c bs hs y :
  sharing st p c bs hs → y ∈ hs → ref_count y st = Some (Z.of_nat (length hs)).
Proof.
  intros (_ & Hobjs & _ & Hc & _) Hy. unfold ref_count, get_counter, load_int.
  by rewrite (Hobjs y Hy).
Qed.

Lemma sharing_constructed st x s n :
  sharing (constructed x s n st) (fresh (dom (chars st))) (fresh (dom (ints st)))
          (take n s ++ [x00]) [x].
Proof.
  unfold sharing, constructed. simpl. rewrite !lookup_insert_eq.
  repeat split; try done.
  - apply NoDup_singleton.
  - intros y ->%list_elem_of_singleton. apply lookup_insert_eq.
Qed.

Lemma sharing_copy st p c bs hs x y :
  sharing st p c bs hs → x ∈ hs → objs st !! y = None →
  Z.of_nat (length hs) + 1 ≤ INT_MAX →
  ∃ st', exec (SCopy y x) st = Some st' ∧ sharing st' p c bs (y :: hs) ∧
         ∀ z, z ≠ y → objs st' !! z = objs st !! z.
Proof.
  intros (Hnd & Hobjs & Hp & Hc & _) Hx Hy Hmax. simpl.
  unfold alive. rewrite bool_decide_eq_false_2 by (rewrite Hy; by intros [? ?]).
  rewrite (Str_copy_eq y x _ st (Hobjs x Hx)). simpl.
  rewrite (incr_eq c (Z.of_nat (length hs))); [|done|unfold INT_MIN; lia].
  eexists. split; [done|]. split.
  - unfold sharing. simpl. rewrite lookup_insert_eq.
    repeat split; try done.
    + apply list.NoDup_cons. split; [|done]. intros Hin.
      by rewrite (Hobjs y Hin) in Hy.
    + intros z [->|Hz]%elem_of_cons; [apply lookup_insert_eq|].
      rewrite lookup_insert_ne; [by apply Hobjs|].
      intros <-. by rewrite (Hobjs y Hz) in Hy.
    + f_equal. lia.
    + lia.
  - intros z Hz. simpl. by rewrite lookup_insert_ne.
Qed.

Lemma sharing_copy_each st p c bs hs x ys :
  sharing st p c bs hs → x ∈ hs → NoDup ys →
  Forall (λ y, objs st !! y = None) ys →
  Z.of_nat (length hs) + Z.of_nat (length ys) ≤ INT_MAX →
  ∃ st', run (copy_each ys x) st = Some st' ∧ sharing st' p c bs (rev ys ++ hs).
Proof.
  revert st hs. induction ys as [|y ys IH]; intros st hs Hsh Hx Hnd Hfresh Hmax.
  - simpl. eauto.
  - apply list.NoDup_cons in Hnd as [Hy Hnd].
    apply Forall_cons_1 in Hfresh as [Hfy Hfresh].
    destruct (sharing_copy st p c bs hs x y) as (st1 & Hexec & Hsh1 & Hframe);
      [done..|simpl in Hmax; lia|].
    destruct (IH st1 (y :: hs)) as (st' & Hrun & Hsh'); [done| |done| | |].
    + by apply elem_of_cons; right.
    + apply list.Forall_forall. intros z Hz.
      rewrite Hframe; [|intros ->; by apply Hy].
      by apply (proj1 (list.Forall_forall _ _) Hfresh).
    + simpl in *. lia.
    + exists st'. split.
      * change (copy_each (y :: ys) x) with (SCopy y x :: copy_each ys x).
        by rewrite run_cons, Hexec.
      * simpl. by rewrite <- app_assoc.
Qed.

Lemma sharing_destroy st p c bs y hs :
  sharing st p c bs (y :: hs) →
  ∃ st', exec (SDestroy y) st = Some st' ∧
         (hs ≠ [] → sharing st' p c bs hs) ∧
         (hs = [] → chars st' !! p = None ∧ ints st' !! c = None).
Proof.
  intros (Hnd & Hobjs & Hp & Hc & Hmax). simpl in Hc, Hmax.
  apply list.NoDup_cons in Hnd as [Hy Hnd].
  assert (objs st !! y = Some (mkStr (Some p) (Some c))) as Hobj
    by (apply Hobjs, elem_of_cons; by left).
  simpl. rewrite (Str_destroy_eq y _ st Hobj). simpl.
  rewrite (decr_eq c _ st Hc) by (unfold INT_MIN; lia). simpl.
  rewrite lookup_insert_eq. simpl.
  replace (Z.of_nat (S (length hs)) - 1) with (Z.of_nat (length hs)) by lia.
  destruct hs as [|z hs]; simpl length.
  - rewrite decide_True by done. rewrite Hp. simpl.
    unfold delete_int. simpl. rewrite lookup_insert_eq. simpl.
    eexists. split; [done|]. split; [done|]. intros _. simpl.
    by rewrite !lookup_delete_eq.
  - rewrite decide_False by lia. eexists. split; [done|]. split; [|done].
    intros _. unfold sharing. simpl. rewrite lookup_insert_eq.
    split; [done|]. split; [|split; [done|split; [done|simpl in Hmax; lia]]].
    intros z' Hz'. rewrite lookup_delete_ne; [|intros <-; by apply Hy].
    apply Hobjs, elem_of_cons. by right.
Qed.

Lemma sharing_destroy_some st p c bs zs1 zs2 :
  sharing st p c bs (zs1 ++ zs2) → zs2 ≠ [] →
  ∃ st', run (destroy_each zs1) st = Some st' ∧ sharing st' p c bs zs2.
Proof.
  revert st. induction zs1 as [|z zs1 IH]; intros st Hsh Hne.
  - by exists st.
  - rewrite <- app_comm_cons in Hsh.
    destruct (sharing_destroy st p c bs z (zs1 ++ zs2) Hsh) as (st1 & Hexec & Hsh1 & _).
    destruct (IH st1) as (st' & Hrun & Hsh'); [|done|].
    + apply Hsh1. by destruct zs1.
    + exists st'. split; [|done].
      change (destroy_each (z :: zs1)) with (SDestroy z :: destroy_each zs1).
      by rewrite run_cons, Hexec.
Qed.

Lemma sharing_destroy_all st p c bs zs :
  sharing st p c bs zs → zs ≠ [] →
  ∃ st', run (destroy_each zs) st = Some st' ∧
         chars st' !! p = None ∧ ints st' !! c = None.
Proof.
  intros Hsh Hne.
  destruct (exists_last Hne) as (zs1 & z & ->).
  destruct (sharing_destroy_some st p c bs zs1 [z] Hsh) as (st1 & Hrun & Hsh1);
    [done|].
  destruct (sharing_destroy st1 p c bs z [] Hsh1) as (st' & Hexec & _ & Hfreed).
  exists st'. split; [|by apply Hfreed].
  unfold destroy_each. rewrite fmap_app, run_app.
  fold (destroy_each zs1). rewrite Hrun. simpl. simpl in Hexec.
  by rewrite Hexec.
Qed.

(** C3, with the bound the [int] counter puts on it: a handle constructed
    from content has reference count 1; after copying it N times, with
    N + 1 no more than [INT_MAX], every one of the N + 1 handles observes
    the count N + 1; destroying the handles in any order [zs], each
    destruction takes exactly 1 off the count the remaining handles
    observe, the buffer and the counter staying allocated; and when the
    last handle is destroyed the buffer and the counter are freed. *)
Theorem refcount_lifecycle st x ys zs s n :
  (n ≤ length s)%nat →
  x ∉ ys → NoDup ys → Forall (λ y, alive y st = false) ys →
  Z.of_nat (length ys) + 1 ≤ INT_MAX →
  zs ≡ₚ x :: ys →
  ∃ st1 st2 p c,
    Str_from x s n st = Some st1 ∧
    ref_count x st1 = Some 1 ∧
    c_str x st1 = Some (Some p) ∧ get_counter x st1 = Some (Some c) ∧
    run (copy_each ys x) st1 = Some st2 ∧
    (∀ y, y ∈ x :: ys → ref_count y st2 = Some (Z.of_nat (length ys) + 1)) ∧
    (∀ k, (k ≤ length ys)%nat →
       ∃ st3, run (destroy_each (take k zs)) st2 = Some st3 ∧
         (∀ y, y ∈ drop k zs →
            ref_count y st3 = Some (Z.of_nat (length ys) + 1 - Z.of_nat k)) ∧
         is_Some (chars st3 !! p) ∧ is_Some (ints st3 !! c)) ∧
    (∃ st4, run (destroy_each zs) st2 = Some st4 ∧
       chars st4 !! p = None ∧ ints st4 !! c = None).
Proof.
  intros Hn Hx Hnd Hfresh Hmax Hperm.
  pose proof (sharing_constructed st x s n) as Hsh1.
  set (p := fresh (dom (chars st))) in *. set (c := fresh (dom (ints st))) in *.
  set (bs := take n s ++ [x00]) in *.
  destruct (sharing_copy_each (constructed x s n st) p c bs [x] x ys)
    as (st2 & Hrun & Hsh2); [done|by apply list_elem_of_singleton|done| | |].
  { apply list.Forall_forall. intros y Hy. unfold constructed. simpl.
    rewrite lookup_insert_ne by (intros ->; by apply Hx).
    by apply alive_false, (proj1 (list.Forall_forall _ _) Hfresh). }
  { simpl. lia. }
  assert (zs ≡ₚ rev ys ++ [x]) as Hperm2.
  { rewrite Hperm, <- Permutation_rev. apply Permutation_cons_append. }
  assert (length zs = S (length ys)) as Hlen by by rewrite Hperm.
  pose proof (sharing_perm _ _ _ _ _ _ (symmetry Hperm2) Hsh2) as Hzs.
  exists (constructed x s n st), st2, p, c.
  split; [by apply Str_from_eq|]. split; [apply constructed_ref_count|].
  split; [unfold c_str, get_ptr; by rewrite constructed_obj|].
  split; [unfold get_counter; by rewrite constructed_obj|].
  split; [done|]. split; [|split].
  - intros y Hy. rewrite (sharing_ref_count _ _ _ _ _ y Hzs).
    + f_equal. lia.
    + by rewrite Hperm.
  - intros k Hk. rewrite <- (take_drop k zs) in Hzs.
    destruct (sharing_destroy_some st2 p c bs _ _ Hzs) as (st3 & Hrun3 & Hsh3).
    { intros Hnil%(f_equal length). rewrite length_drop in Hnil. simpl in Hnil. lia. }
    exists st3. split; [done|]. split.
    + intros y Hy. rewrite (sharing_ref_count _ _ _ _ _ y Hsh3 Hy).
      f_equal. rewrite length_drop. lia.
    + destruct Hsh3 as (_ & _ & -> & -> & _). eauto.
  - apply (sharing_destroy_all st2 p c bs zs Hzs). intros ->. done.
Qed.

Lemma refcount_lifecycle_witness :
  ((2 ≤ length ["h"; "i"]%byte)%nat ∧
   (0%nat ∉ [1%nat; 2%nat]) ∧ NoDup [1%nat; 2%nat] ∧
   Forall (λ y, alive y empty_state = false) [1%nat; 2%nat] ∧
   Z.of_nat (length [1%nat; 2%nat]) + 1 ≤ INT_MAX ∧
   [2%nat; 0%nat; 1%nat] ≡ₚ [0%nat; 1%nat; 2%nat]) ∧
  ∃ st1 st2 p c,
    Str_from 0 ["h"; "i"]%byte 2 empty_state = Some st1 ∧
    ref_count 0 st1 = Some 1 ∧
    c_str 0 st1 = Some (Some p) ∧ get_counter 0 st1 = Some (Some c) ∧
    run (copy_each [1%nat; 2%nat] 0) st1 = Some st2 ∧
    (∀ y, y ∈ [0%nat; 1%nat; 2%nat] → ref_count y st2 = Some (Z.of_nat 2 + 1)) ∧
    (∀ k, (k ≤ 2)%nat →
       ∃ st3, run (destroy_each (take k [2%nat; 0%nat; 1%nat])) st2 = Some st3 ∧
         (∀ y, y ∈ drop k [2%nat; 0%nat; 1%nat] →
            ref_count y st3 = Some (Z.of_nat 2 + 1 - Z.of_nat k)) ∧
         is_Some (chars st3 !! p) ∧ is_Some (ints st3 !! c)) ∧
    (∃ st4, run (destroy_each [2%nat; 0%nat; 1%nat]) st2 = Some st4 ∧
       chars st4 !! p = None ∧ ints st4 !! c = None).
Proof.
  assert ((2 ≤ length ["h"; "i"]%byte)%nat) as H1 by (simpl; lia).
  assert (0%nat ∉ [1%nat; 2%nat]) as H2 by compute_done.
  assert (NoDup [1%nat; 2%nat]) as H3 by compute_done.
  assert (Forall (λ y, alive y empty_state = false) [1%nat; 2%nat]) as H4
    by (repeat constructor).
  assert (Z.of_nat (length [1%nat; 2%nat]) + 1 ≤ INT_MAX) as H5
    by (unfold INT_MAX; simpl; lia).
  assert ([2%nat; 0%nat; 1%nat] ≡ₚ [0%nat; 1%nat; 2%nat]) as H6.
  { etrans; [apply perm_swap|]. apply perm_skip, perm_swap. }
  split; [done|].
  exact (refcount_lifecycle empty_state 0%nat [1%nat; 2%nat]
           [2%nat; 0%nat; 1%nat] ["h"; "i"]%byte 2 H1 H2 H3 H4 H5 H6).
Defined.

Lemma exec_copy_at_INT_MAX st p c bs hs x y :
  sharing st p c bs hs → x ∈ hs → Z.of_nat (length hs) = INT_MAX →
  exec (SCopy y x) st = None.
Proof.
  intros (_ & Hobjs & _ & Hc & _) Hx Hlen. simpl.
  destruct (alive y st); [done|].
  rewrite (Str_copy_eq y x _ st (Hobjs x Hx)). simpl.
  unfold incr, load_int. simpl. rewrite Hc. simpl. unfold to_int.
  rewrite decide_False by lia. done.
Qed.

Lemma copy_each_overflows (N : nat) :
  Z.of_nat N = INT_MAX →
  run (copy_each (seq 1 N) 0) (constructed 0 [] 0 empty_state) = None.
Proof.
  intros HN. destruct N as [|N]; [done|].
  rewrite seq_S. unfold copy_each. rewrite fmap_app, run_app.
  fold (copy_each (seq 1 N) 0).
  pose proof (sharing_constructed empty_state 0 [] 0) as Hsh.
  destruct (sharing_copy_each _ _ _ _ [0%nat] 0%nat (seq 1 N) Hsh)
    as (st' & -> & Hsh'); [by apply list_elem_of_singleton|apply NoDup_seq| | |].
  - apply list.Forall_forall. intros y [Hy _]%elem_of_seq.
    unfold constructed. simpl. rewrite lookup_insert_ne by lia.
    apply lookup_empty.
  - rewrite length_seq. simpl. lia.
  - change (Some st' ≫= run ((λ y, SCopy y 0) <$> [(1 + N)%nat]))
      with (run (SCopy (1 + N) 0 :: []) st').
    rewrite run_cons.
    rewrite (exec_copy_at_INT_MAX st' _ _ _ _ 0%nat (1 + N)%nat Hsh'); [done| |].
    + apply elem_of_app. right. by apply list_elem_of_singleton.
    + rewrite length_app, length_rev, length_seq. simpl. lia.
Qed.

(** C3 fails where the count leaves the type [int]: the counter is an
    [int], and copying a handle [INT_MAX] times overflows it on the last
    copy, so that no handle ever observes the count [INT_MAX + 1]. *)
Lemma refcount_lifecycle_counterexample :
  ∃ st1,
    Str_from 0 [] 0 empty_state = Some st1 ∧ ref_count 0 st1 = Some 1 ∧
    run (copy_each (seq 1 (Z.to_nat INT_MAX)) 0) st1 = None ∧
    ¬ ∃ st2, run (copy_each (seq 1 (Z.to_nat INT_MAX)) 0) st1 = Some st2 ∧
             ref_count 0 st2 = Some (INT_MAX + 1).
Proof.
  exists (constructed 0 [] 0 empty_state).
  assert (run (copy_each (seq 1 (Z.to_nat INT_MAX)) 0)
              (constructed 0 [] 0 empty_state) = None) as Hrun.
  { apply copy_each_overflows. apply Z2Nat.id. by unfold INT_MAX. }
  split; [by apply Str_from_eq|]. split; [apply constructed_ref_count|].
  split; [done|]. intros (st2 & Hst2 & _). by rewrite Hrun in Hst2.
Qed.

(* ===================================================================== *)
(** * Construction and immutability of the content                        *)
(* ===================================================================== *)

(** C7: in every state a program reaches, constructing a handle from the
    [n] bytes [s] at the front of the source array allocates a buffer that
    was not allocated before, of [n + 1] bytes, and the raw content read
    back through [c_str()] is [s] followed by the zero byte; whatever
    statements run afterwards on other objects (constructions, copies,
    assignments, destructions), the handle keeps pointing to that buffer
    and the buffer keeps holding [s] followed by the zero byte. *)
Theorem construct_content_roundtrip prog0 st this s rest :
  run prog0 empty_state = Some st → alive this st = false →
  ∃ st1 p,
    exec (SFrom this (s ++ rest) (length s)) st = Some st1 ∧
    chars st !! p = None ∧
    c_str this st1 = Some (Some p) ∧
    raw_content this st1 = Some (s ++ [x00]) ∧
    length (s ++ [x00]) = (length s + 1)%nat ∧
    ∀ prog st2,
      Forall (λ stmt, target stmt ≠ this) prog → run prog st1 = Some st2 →
      c_str this st2 = Some (Some p) ∧ raw_content this st2 = Some (s ++ [x00]).
Proof.
  intros HInv%reachable_Inv Hthis.
  assert (length s ≤ length (s ++ rest))%nat as Hn by (rewrite length_app; lia).
  exists (constructed this (s ++ rest) (length s) st), (fresh (dom (chars st))).
  assert (take (length s) (s ++ rest) = s) as Htake by by rewrite take_app_length.
  assert (Str_from this (s ++ rest) (length s) st
          = Some (constructed this (s ++ rest) (length s) st)) as Hfrom
    by by apply Str_from_eq.
  split; [simpl; by rewrite Hthis|].
  split; [apply Str_from_fresh_chars|].
  split; [unfold c_str, get_ptr; by rewrite constructed_obj|].
  split; [by rewrite constructed_raw_content, Htake|].
  split; [rewrite length_app; simpl; lia|].
  intros prog st2 Hprog Hrun.
  assert (Inv (constructed this (s ++ rest) (length s) st)) as HInv1.
  { eapply Str_from_Inv; [done|by apply alive_false|done]. }
  destruct (run_frame prog _ st2 this _ HInv1 Hrun Hprog
              (constructed_obj st this (s ++ rest) (length s))) as [Hobj Hbuf].
  unfold raw_content, c_str, get_ptr. rewrite Hobj. simpl. split; [done|].
  rewrite (Hbuf _ eq_refl). unfold constructed. simpl.
  by rewrite lookup_insert_eq, Htake.
Qed.

Lemma construct_content_witness :
  ∃ st,
    run [SFrom 0 ["x"]%byte 1; SCopy 1 0] empty_state = Some st ∧
    alive 2 st = false ∧
    ∃ st1 p,
      exec (SFrom 2 (["a"; "b"; "c"]%byte ++ [x00]) (length ["a"; "b"; "c"]%byte)) st
        = Some st1 ∧
      chars st !! p = None ∧
      c_str 2 st1 = Some (Some p) ∧
      raw_content 2 st1 = Some (["a"; "b"; "c"]%byte ++ [x00]) ∧
      length (["a"; "b"; "c"]%byte ++ [x00]) = (length ["a"; "b"; "c"]%byte + 1)%nat ∧
      ∀ prog st2,
        Forall (λ stmt, target stmt ≠ 2%nat) prog → run prog st1 = Some st2 →
        c_str 2 st2 = Some (Some p) ∧
        raw_content 2 st2 = Some (["a"; "b"; "c"]%byte ++ [x00]).
Proof.
  eexists. split; [reflexivity|]. split; [reflexivity|].
  apply (construct_content_roundtrip [SFrom 0 ["x"]%byte 1; SCopy 1 0] _ 2%nat
           ["a"; "b"; "c"]%byte [x00]); reflexivity.
Defined.

(* ===================================================================== *)
(** * The validity predicate                                              *)
(* ===================================================================== *)




(* ===================================================================== *)
(** * Comparison operators                                                *)
(* ===================================================================== *)

Lemma lex_lt_irrefl u : lex_lt u u = false.
Proof.
  induction u as [|x u IH]; simpl; [done|]. by rewrite decide_True.
Qed.

Lemma lex_lt_trans u v w :
  lex_lt u v = true → lex_lt v w = true → lex_lt u w = true.
Proof.
  revert v w. induction u as [|x u IH]; intros [|y v] [|z w]; simpl; try done.
  repeat case_decide; simplify_eq; rewrite ?bool_decide_eq_true; eauto; lia.
Qed.

Lemma lex_lt_total u v : lex_lt u v = true ∨ u = v ∨ lex_lt v u = true.
Proof.
  revert v. induction u as [|x u IH]; intros [|y v]; simpl; eauto.
  destruct (decide (x = y)) as [->|Hxy].
  - rewrite decide_True by done. destruct (IH v) as [?|[->|?]]; eauto.
  - rewrite (decide_False (P := y = x)) by congruence.
    rewrite !bool_decide_eq_true.
    assert (uchar x ≠ uchar y) by (intros ?%uchar_inj; done). lia.
Qed.

Lemma lex_lt_asym u v : lex_lt u v = true → lex_lt v u = false.
Proof.
  intros Huv. destruct (lex_lt v u) eqn:Hvu; [|done].
  pose proof (lex_lt_trans _ _ _ Huv Hvu) as Huu.
  by rewrite lex_lt_irrefl in Huu.
Qed.

Lemma key_lt_asym k1 k2 : key_lt k1 k2 = true → key_lt k2 k1 = false.
Proof. destruct k1, k2; simpl; try done. apply lex_lt_asym. Qed.

Lemma key_lt_irrefl k : key_lt k k = false.
Proof. destruct k; simpl; [apply lex_lt_irrefl|done]. Qed.

Lemma key_lt_trans k1 k2 k3 :
  key_lt k1 k2 = true → key_lt k2 k3 = true → key_lt k1 k3 = true.
Proof.
  destruct k1, k2, k3; simpl; try done. apply lex_lt_trans.
Qed.

Lemma key_lt_total k1 k2 : key_lt k1 k2 = true ∨ k1 = k2 ∨ key_lt k2 k1 = true.
Proof.
  destruct k1 as [u|], k2 as [v|]; simpl; eauto.
  destruct (lex_lt_total u v) as [?|[->|?]]; eauto.
Qed.

Lemma key_Some_inv x st k :
  key x st = Some k →
  ∃ h, objs st !! x = Some h ∧
    match ptr h, k with
    | None, None => True
    | Some p, Some w => ∃ bs, chars st !! p = Some bs ∧ c_string bs = Some w
    | _, _ => False
    end.
Proof.
  unfold key, get_ptr. intros Hk.
  destruct (objs st !! x) as [h|]; simpl in Hk; [|done]. exists h. split; [done|].
  destruct (ptr h) as [p|]; simpl in Hk; [|by simplify_eq].
  destruct (chars st !! p) as [bs|]; simpl in Hk; [|done].
  destruct (c_string bs) as [w|] eqn:Hw; simpl in Hk; [|done].
  simplify_eq. eauto.
Qed.

Lemma Inv_key st x h : Inv st → objs st !! x = Some h → ∃ k, key x st = Some k.
Proof.
  intros [Hok _ _] Hx. unfold key, get_ptr. rewrite Hx. simpl.
  destruct (handle_ok_cases _ _ (Hok _ _ Hx))
    as [[-> _]|(p & c & bs & w & -> & _ & -> & Hw & _)]; simpl; [eauto|].
  rewrite Hw. simpl. eauto.
Qed.

(** The six operators decide the order and the equality of keys. *)
Lemma operators_by_key st a b ka kb :
  key a st = Some ka → key b st = Some kb →
  op_lt a b st = Some (key_lt ka kb) ∧
  op_gt a b st = Some (key_lt kb ka) ∧
  op_le a b st = Some (negb (key_lt kb ka)) ∧
  op_ge a b st = Some (negb (key_lt ka kb)) ∧
  op_eq a b st = Some (bool_decide (ka = kb)) ∧
  op_ne a b st = Some (negb (bool_decide (ka = kb))).
Proof.
  intros (ha & Ha & Hka)%key_Some_inv (hb & Hb & Hkb)%key_Some_inv.
  unfold op_lt, op_gt, op_le, op_ge, op_eq, op_ne, get_ptr.
  rewrite Ha, Hb. simpl.
  destruct (ptr ha) as [p|], ka as [u|]; try done;
    destruct (ptr hb) as [q|], kb as [v|]; try done; simpl.
  destruct Hka as (bs1 & Hp & Hu), Hkb as (bs2 & Hq & Hv).
  {
    unfold strcmp. rewrite Hp, Hq. simpl.
    destruct (strcmp_bytes_c_string bs1 bs2 u v Hu Hv) as (r & -> & Hlt & Heq & Hgt).
    simpl.
    assert (bool_decide (r < 0) = lex_lt u v) as ->.
    { destruct (lex_lt u v); [apply bool_decide_eq_true|apply bool_decide_eq_false];
        rewrite Hlt; done. }
    assert (bool_decide (0 < r) = lex_lt v u) as ->.
    { destruct (lex_lt v u); [apply bool_decide_eq_true|apply bool_decide_eq_false];
        rewrite Hgt; done. }
    assert (bool_decide (r ≤ 0) = negb (lex_lt v u)) as ->.
    { destruct (lex_lt v u); simpl;
        [apply bool_decide_eq_false|apply bool_decide_eq_true]; lia. }
    assert (bool_decide (0 ≤ r) = negb (lex_lt u v)) as ->.
    { destruct (lex_lt u v); simpl;
        [apply bool_decide_eq_false|apply bool_decide_eq_true]; lia. }
    repeat split; try done.
    + case_decide as Hpq.
      * simplify_eq. by rewrite bool_decide_eq_true_2.
      * f_equal. apply bool_decide_ext. rewrite Heq. split; congruence.
    + case_decide as Hpq.
      * simplify_eq. by rewrite bool_decide_eq_true_2.
      * f_equal. rewrite <- bool_decide_not. apply bool_decide_ext.
        rewrite Heq. split; intros ? ?; simplify_eq. }
Qed.

Lemma c_string_Some_inv bs w :
  c_string bs = Some w → (x00 ∉ w) ∧ ∃ rest, bs = w ++ x00 :: rest.
Proof.
  revert w. induction bs as [|b bs IH]; intros w; simpl; [done|].
  case_decide as Hb.
  - intros [= <-]. subst b. split; [apply not_elem_of_nil|]. by exists bs.
  - destruct (c_string bs) as [w'|]; simpl; [|done]. intros [= <-].
    destruct (IH w' eq_refl) as [Hw' [rest ->]]. split.
    + apply not_elem_of_cons. split; [congruence|done].
    + by exists rest.
Qed.

(** A key is what [c_str()] shows up to the first zero byte. *)
Lemma key_meaning x st k :
  key x st = Some k →
  match k with
  | None => c_str x st = Some None
  | Some w => (x00 ∉ w) ∧ ∃ rest, raw_content x st = Some (w ++ x00 :: rest)
  end.
Proof.
  intros (h & Hx & Hk)%key_Some_inv. unfold raw_content, c_str, get_ptr.
  rewrite Hx. simpl. destruct (ptr h) as [p|], k as [w|]; try done.
  destruct Hk as (bs & Hp & Hw). simpl. rewrite Hp.
  destruct (c_string_Some_inv bs w Hw) as [Hz [rest ->]]. eauto.
Qed.

(** C5, with the contents read as C strings: in every state a program
    reaches, the six comparison operators return a result for any handles
    alive, and the results are those of one strict total order on keys,
    where the key of an Uninitialized handle is [None] and the key of an
    Initialized handle is its content up to, and without, the first zero
    byte. [None] comes strictly before every other key; two [None]s
    satisfy neither [<] nor [>] and both [<=] and [>=]; two Initialized
    handles are ordered by the lexicographic order, on unsigned bytes, of
    their keys. [==] holds exactly for equal keys, [!=] is its negation,
    [>] is [<] with the sides swapped, [<=] is not [>], [>=] is not [<];
    [<] is irreflexive and transitive, and of [<], [==] and [>] exactly
    one holds. *)
Theorem comparison_operators_total_order prog st a b c :
  run prog empty_state = Some st →
  alive a st = true → alive b st = true → alive c st = true →
  ∃ ka kb,
    key a st = Some ka ∧ key b st = Some kb ∧
    match ka with
    | None => c_str a st = Some None
    | Some w => (x00 ∉ w) ∧ ∃ rest, raw_content a st = Some (w ++ x00 :: rest)
    end ∧
    op_lt a b st = Some (key_lt ka kb) ∧
    op_gt a b st = Some (key_lt kb ka) ∧
    op_le a b st = Some (negb (key_lt kb ka)) ∧
    op_ge a b st = Some (negb (key_lt ka kb)) ∧
    op_eq a b st = Some (bool_decide (ka = kb)) ∧
    op_ne a b st = Some (negb (bool_decide (ka = kb))) ∧
    (ka = None → kb = None →
       key_lt ka kb = false ∧ key_lt kb ka = false) ∧
    (ka = None → kb ≠ None → key_lt ka kb = true ∧ key_lt kb ka = false) ∧
    (∀ u v, ka = Some u → kb = Some v → key_lt ka kb = lex_lt u v) ∧
    op_lt a a st = Some false ∧
    (op_lt a b st = Some true → op_lt b c st = Some true →
     op_lt a c st = Some true) ∧
    (op_lt a b st = Some true ∧ op_eq a b st = Some false ∧
       op_gt a b st = Some false ∨
     op_lt a b st = Some false ∧ op_eq a b st = Some true ∧
       op_gt a b st = Some false ∨
     op_lt a b st = Some false ∧ op_eq a b st = Some false ∧
       op_gt a b st = Some true).
Proof.
  intros HInv%reachable_Inv [ha Ha]%bool_decide_eq_true
    [hb Hb]%bool_decide_eq_true [hc Hc]%bool_decide_eq_true.
  destruct (Inv_key st a ha HInv Ha) as [ka Hka].
  destruct (Inv_key st b hb HInv Hb) as [kb Hkb].
  destruct (Inv_key st c hc HInv Hc) as [kc Hkc].
  exists ka, kb. do 2 (split; [done|]).
  split; [by apply key_meaning|].
  destruct (operators_by_key st a a ka ka Hka Hka) as (Haa & _).
  destruct (operators_by_key st b c kb kc Hkb Hkc) as (Hbc & _).
  destruct (operators_by_key st a c ka kc Hka Hkc) as (Hac & _).
  destruct (operators_by_key st a b ka kb Hka Hkb) as (-> & -> & -> & -> & -> & ->).
  do 6 (split; [done|]).
  split; [by intros -> ->|]. split; [intros ->; by destruct kb|].
  split; [by intros u v -> ->|].
  split; [by rewrite Haa, key_lt_irrefl|]. split.
  - rewrite Hbc, Hac. intros [= H1] [= H2]. f_equal. by eapply key_lt_trans.
  - destruct (key_lt_total ka kb) as [Hlt|[->|Hgt]].
    + left. rewrite Hlt, (key_lt_asym _ _ Hlt).
      rewrite bool_decide_eq_false_2; [done|].
      intros ->. by rewrite key_lt_irrefl in Hlt.
    + right; left. by rewrite key_lt_irrefl, bool_decide_eq_true_2.
    + right; right. rewrite Hgt, (key_lt_asym _ _ Hgt).
      rewrite bool_decide_eq_false_2; [done|].
      intros ->. by rewrite key_lt_irrefl in Hgt.
Qed.

Lemma comparison_operators_witness :
  ∃ st,
    run [SDefault 0; SFrom 1 ["a"; "p"]%byte 2; SFrom 2 ["b"]%byte 1]
        empty_state = Some st ∧
    alive 0 st = true ∧ alive 1 st = true ∧ alive 2 st = true ∧
    op_lt 0 1 st = Some true ∧ op_lt 1 2 st = Some true ∧
    op_lt 0 2 st = Some true ∧
    ∃ ka kb,
      key 0 st = Some ka ∧ key 1 st = Some kb ∧
      match ka with
      | None => c_str 0 st = Some None
      | Some w => (x00 ∉ w) ∧ ∃ rest, raw_content 0 st = Some (w ++ x00 :: rest)
      end ∧
      op_lt 0 1 st = Some (key_lt ka kb) ∧
      op_gt 0 1 st = Some (key_lt kb ka) ∧
      op_le 0 1 st = Some (negb (key_lt kb ka)) ∧
      op_ge 0 1 st = Some (negb (key_lt ka kb)) ∧
      op_eq 0 1 st = Some (bool_decide (ka = kb)) ∧
      op_ne 0 1 st = Some (negb (bool_decide (ka = kb))) ∧
      (ka = None → kb = None →
         key_lt ka kb = false ∧ key_lt kb ka = false) ∧
      (ka = None → kb ≠ None → key_lt ka kb = true ∧ key_lt kb ka = false) ∧
      (∀ u v, ka = Some u → kb = Some v → key_lt ka kb = lex_lt u v) ∧
      op_lt 0 0 st = Some false ∧
      (op_lt 0 1 st = Some true → op_lt 1 2 st = Some true →
       op_lt 0 2 st = Some true) ∧
      (op_lt 0 1 st = Some true ∧ op_eq 0 1 st = Some false ∧
         op_gt 0 1 st = Some false ∨
       op_lt 0 1 st = Some false ∧ op_eq 0 1 st = Some true ∧
         op_gt 0 1 st = Some false ∨
       op_lt 0 1 st = Some false ∧ op_eq 0 1 st = Some false ∧
         op_gt 0 1 st = Some true).
Proof.
  eexists. split; [reflexivity|]. do 6 (split; [reflexivity|]).
  apply (comparison_operators_total_order
           [SDefault 0; SFrom 1 ["a"; "p"]%byte 2; SFrom 2 ["b"]%byte 1]
           _ 0%nat 1%nat 2%nat); reflexivity.
Defined.

(** C5 fails for contents with a zero byte inside: the byte sequences
    "a\0b" and "a\0c" are in lexicographic order, the first before the
    second, and yet the handles constructed from them are not [<]; they
    are [==]. *)
Lemma comparison_operators_counterexample :
  ∃ st,
    run [SFrom 0 ["a"; x00; "b"]%byte 3; SFrom 1 ["a"; x00; "c"]%byte 3]
        empty_state = Some st ∧
    raw_content 0 st = Some ["a"; x00; "b"; x00]%byte ∧
    raw_content 1 st = Some ["a"; x00; "c"; x00]%byte ∧
    lex_lt ["a"; x00; "b"]%byte ["a"; x00; "c"]%byte = true ∧
    op_lt 0 1 st = Some false ∧ op_le 1 0 st = Some true ∧
    op_eq 0 1 st = Some true.
Proof. eexists. repeat split; reflexivity. Qed.

(** C6: in any state, each part on its own. Equality is reflexive for
    every handle alive, initialized or not, by the test on the pointers
    alone, and [!=] is false on it. When exactly one of two handles is
    Uninitialized, [==] is false and [!=] is true, whichever side it is
    on. Two handles whose buffers hold the same content are [==] and not
    [!=], whether or not they are the same allocation. And two handles
    constructed one after the other from the same content are distinct
    allocations and are [==] (and not [!=]). *)
Theorem equality_contract st x u i p c d bs a b s n :
  (alive x st = true →
   op_eq x x st = Some true ∧ op_ne x x st = Some false) ∧
  (c_str u st = Some None → c_str i st = Some (Some p) →
   op_eq u i st = Some false ∧ op_eq i u st = Some false ∧
   op_ne u i st = Some true ∧ op_ne i u st = Some true) ∧
  (raw_content c st = Some (bs ++ [x00]) →
   raw_content d st = Some (bs ++ [x00]) →
   op_eq c d st = Some true ∧ op_ne c d st = Some false) ∧
  (a ≠ b → (n ≤ length s)%nat →
   ∃ st1 st2 pa pb,
     Str_from a s n st = Some st1 ∧ Str_from b s n st1 = Some st2 ∧
     c_str a st2 = Some (Some pa) ∧ c_str b st2 = Some (Some pb) ∧ pa ≠ pb ∧
     op_eq a b st2 = Some true ∧ op_ne a b st2 = Some false).
Proof.
  split; [|split; [|split]].
  - intros [hx Hx]%bool_decide_eq_true.
    split; [by eapply op_eq_same|].
    unfold op_ne, get_ptr. rewrite Hx. simpl. by rewrite decide_True.
  - unfold c_str, op_eq, op_ne. intros -> ->. simpl. done.
  - unfold raw_content, c_str. intros Hc Hd.
    destruct (get_ptr c st) as [[pc|]|] eqn:Hpc; simpl in Hc; try done.
    destruct (get_ptr d st) as [[pd|]|] eqn:Hpd; simpl in Hd; try done.
    apply (op_eq_strcmp c d pc pd); [done..|].
    unfold strcmp. rewrite Hc, Hd. simpl.
    eapply strcmp_bytes_same, c_string_terminated.
  - intros Hab Hn.
    destruct (Str_from_twice st a b s n s n Hab Hn Hn)
      as (st1 & st2 & p1 & p2 & H1 & H2 & Hp & Ha & Hb & Hc1 & Hc2).
    exists st1, st2, p1, p2. unfold c_str. do 5 (split; [done|]).
    apply (op_eq_strcmp a b p1 p2); [done..|].
    unfold strcmp. rewrite Hc1, Hc2. simpl.
    eapply strcmp_bytes_same, c_string_terminated.
Qed.

Lemma equality_contract_witness :
  (∃ st,
     run [SFrom 0 ["a"; "b"; "c"]%byte 3] empty_state = Some st ∧
     alive 0 st = true ∧
     op_eq 0 0 st = Some true ∧ op_ne 0 0 st = Some false) ∧
  (∃ st,
     run [SDefault 0] empty_state = Some st ∧ alive 0 st = true ∧
     op_eq 0 0 st = Some true ∧ op_ne 0 0 st = Some false) ∧
  (∃ st,
     run [SDefault 0; SFrom 1 ["a"]%byte 1] empty_state = Some st ∧
     c_str 0 st = Some None ∧ c_str 1 st = Some (Some 0%nat) ∧
     op_eq 0 1 st = Some false ∧ op_eq 1 0 st = Some false ∧
     op_ne 0 1 st = Some true ∧ op_ne 1 0 st = Some true) ∧
  (∃ st,
     run [SFrom 0 ["h"; "i"]%byte 2; SDefault 1; SFrom 2 ["h"; "i"; "!"]%byte 2;
          SDestroy 1] empty_state = Some st ∧
     raw_content 0 st = Some (["h"; "i"]%byte ++ [x00]) ∧
     raw_content 2 st = Some (["h"; "i"]%byte ++ [x00]) ∧
     c_str 0 st ≠ c_str 2 st ∧
     op_eq 0 2 st = Some true ∧ op_ne 0 2 st = Some false) ∧
  (2%nat ≠ 3%nat ∧ (2 ≤ length ["h"; "i"]%byte)%nat ∧
   ∃ st1 st2 pa pb,
     Str_from 2 ["h"; "i"]%byte 2 empty_state = Some st1 ∧
     Str_from 3 ["h"; "i"]%byte 2 st1 = Some st2 ∧
     c_str 2 st2 = Some (Some pa) ∧ c_str 3 st2 = Some (Some pb) ∧ pa ≠ pb ∧
     op_eq 2 3 st2 = Some true ∧ op_ne 2 3 st2 = Some false).
Proof.
  split; [|split; [|split; [|split]]].
  - eexists. split; [reflexivity|]. split; [reflexivity|].
    refine (proj1 (equality_contract _ 0%nat 0%nat 0%nat 0%nat 0%nat 0%nat []
                     0%nat 1%nat [] 0%nat) _).
    reflexivity.
  - eexists. split; [reflexivity|]. split; [reflexivity|].
    refine (proj1 (equality_contract _ 0%nat 0%nat 0%nat 0%nat 0%nat 0%nat []
                     0%nat 1%nat [] 0%nat) _).
    reflexivity.
  - eexists. split; [reflexivity|]. split; [reflexivity|]. split; [reflexivity|].
    refine (proj1 (proj2 (equality_contract _ 0%nat 0%nat 1%nat 0%nat 0%nat 0%nat
                            [] 0%nat 1%nat [] 0%nat)) _ _); reflexivity.
  - eexists. split; [reflexivity|]. split; [reflexivity|]. split; [reflexivity|].
    split; [discriminate|].
    refine (proj1 (proj2 (proj2 (equality_contract _ 0%nat 0%nat 0%nat 0%nat
                                   0%nat 2%nat ["h"; "i"]%byte 0%nat 1%nat []
                                   0%nat))) _ _); reflexivity.
  - split; [lia|]. split; [simpl; lia|].
    refine (proj2 (proj2 (proj2 (equality_contract empty_state 0%nat 0%nat 0%nat
                                   0%nat 0%nat 0%nat [] 2%nat 3%nat
                                   ["h"; "i"]%byte 2))) _ _); [lia|simpl; lia].
Defined.

(** C10: equality reads the contents up to the first zero byte only. Two
    byte sequences that agree up to and including a zero byte and differ
    after it give two handles, each constructed with its full length, whose
    buffers hold different bytes and which are [==] and not [!=]. *)
Theorem equality_stops_at_zero_byte st a b pre post1 post2 :
  a ≠ b → post1 ≠ post2 →
  ∃ st1 st2,
    Str_from a (pre ++ x00 :: post1) (length (pre ++ x00 :: post1)) st = Some st1 ∧
    Str_from b (pre ++ x00 :: post2) (length (pre ++ x00 :: post2)) st1 = Some st2 ∧
    raw_content a st2 = Some ((pre ++ x00 :: post1) ++ [x00]) ∧
    raw_content b st2 = Some ((pre ++ x00 :: post2) ++ [x00]) ∧
    raw_content a st2 ≠ raw_content b st2 ∧
    op_eq a b st2 = Some true ∧ op_ne a b st2 = Some false.
Proof.
  intros Hab Hpost.
  destruct (Str_from_twice st a b (pre ++ x00 :: post1) (length (pre ++ x00 :: post1))
              (pre ++ x00 :: post2) (length (pre ++ x00 :: post2)) Hab)
    as (st1 & st2 & p1 & p2 & H1 & H2 & Hp & Ha & Hb & Hc1 & Hc2); [done..|].
  rewrite firstn_all in Hc1, Hc2.
  assert (raw_content a st2 = Some ((pre ++ x00 :: post1) ++ [x00])) as Hra
    by (unfold raw_content, c_str; by rewrite Ha).
  assert (raw_content b st2 = Some ((pre ++ x00 :: post2) ++ [x00])) as Hrb
    by (unfold raw_content, c_str; by rewrite Hb).
  exists st1, st2. do 4 (split; [done|]). split.
  - rewrite Hra, Hrb. intros [= Heq]. apply Hpost. apply app_inv_tail in Heq.
    apply app_inv_head in Heq. congruence.
  - apply (op_eq_strcmp a b p1 p2); [done..|].
    unfold strcmp. rewrite Hc1, Hc2. simpl.
    destruct (strcmp_bytes_c_string _ _ _ _
                (c_string_terminated (pre ++ x00 :: post1))
                (c_string_terminated (pre ++ x00 :: post2)))
      as (r & -> & _ & Heq & _).
    f_equal. apply Heq. by rewrite !before_zero_app_zero.
Qed.

Lemma equality_stops_at_zero_byte_witness :
  (0%nat ≠ 1%nat ∧ ["b"]%byte ≠ ["c"; "d"]%byte) ∧
  ∃ st1 st2,
    Str_from 0 (["a"]%byte ++ x00 :: ["b"]%byte)
             (length (["a"]%byte ++ x00 :: ["b"]%byte)) empty_state = Some st1 ∧
    Str_from 1 (["a"]%byte ++ x00 :: ["c"; "d"]%byte)
             (length (["a"]%byte ++ x00 :: ["c"; "d"]%byte)) st1 = Some st2 ∧
    raw_content 0 st2 = Some ((["a"]%byte ++ x00 :: ["b"]%byte) ++ [x00]) ∧
    raw_content 1 st2 = Some ((["a"]%byte ++ x00 :: ["c"; "d"]%byte) ++ [x00]) ∧
    raw_content 0 st2 ≠ raw_content 1 st2 ∧
    op_eq 0 1 st2 = Some true ∧ op_ne 0 1 st2 = Some false.
Proof.
  assert (0%nat ≠ 1%nat) as H1 by lia.
  assert (["b"]%byte ≠ ["c"; "d"]%byte) as H2 by discriminate.
  split; [done|].
  exact (equality_stops_at_zero_byte empty_state 0%nat 1%nat ["a"]%byte
           ["b"]%byte ["c"; "d"]%byte H1 H2).
Defined.

(* ===================================================================== *)
(** * Stream output                                                       *)
(* ===================================================================== *)

Lemma before_zero_prefix s : before_zero s `prefix_of` s.
Proof.
  induction s as [|b s IH]; simpl; [done|].
  case_decide; [apply prefix_nil|by apply prefix_cons].
Qed.

(** C9, with the content read as a C string, each part on its own: in any
    state, writing an Uninitialized handle succeeds and leaves the stream
    as it was; and writing an Initialized handle whose buffer holds [s] and
    the terminator appends to the stream the bytes of [s] before its first
    zero byte, which is all of [s] when [s] has no zero byte. *)
Theorem render_writes_c_string st this u os s :
  (c_str u st = Some None → op_shl os u st = Some os) ∧
  (raw_content this st = Some (s ++ [x00]) →
   op_shl os this st = Some (os ++ before_zero s) ∧
   before_zero s `prefix_of` s ∧
   (x00 ∉ s → op_shl os this st = Some (os ++ s))).
Proof.
  unfold c_str, raw_content, op_shl. split.
  - by intros ->.
  - intros Hraw.
    assert (get_ptr this st ≫=
              (λ p, match p with
                    | Some a => bs ← chars st !! a; w ← c_string bs; Some (os ++ w)
                    | None => Some os
                    end) = Some (os ++ before_zero s)) as Hout.
    { unfold c_str in Hraw.
      destruct (get_ptr this st) as [[a|]|]; simpl in *; try done.
      rewrite Hraw. simpl. by rewrite c_string_terminated. }
    split; [done|]. split; [apply before_zero_prefix|].
    intros Hs. by rewrite Hout, before_zero_id.
Qed.

Lemma render_writes_c_string_witness :
  (∃ st,
     run [SFrom 0 ["a"; "b"; "c"]%byte 3] empty_state = Some st ∧
     raw_content 0 st = Some (["a"; "b"; "c"]%byte ++ [x00]) ∧
     op_shl ["<"]%byte 0 st = Some (["<"]%byte ++ before_zero ["a"; "b"; "c"]%byte) ∧
     before_zero ["a"; "b"; "c"]%byte `prefix_of` ["a"; "b"; "c"]%byte ∧
     (x00 ∉ ["a"; "b"; "c"]%byte →
      op_shl ["<"]%byte 0 st = Some (["<"]%byte ++ ["a"; "b"; "c"]%byte))) ∧
  (∃ st,
     run [SDefault 0] empty_state = Some st ∧
     c_str 0 st = Some None ∧
     op_shl ["<"]%byte 0 st = Some ["<"]%byte).
Proof.
  split.
  - eexists. split; [reflexivity|]. split; [reflexivity|].
    refine (proj2 (render_writes_c_string _ 0%nat 0%nat ["<"]%byte
                     ["a"; "b"; "c"]%byte) _).
    reflexivity.
  - eexists. split; [reflexivity|]. split; [reflexivity|].
    refine (proj1 (render_writes_c_string _ 0%nat 0%nat ["<"]%byte []) _).
    reflexivity.
Defined.

(** C9 fails for a content with a zero byte inside: the handle constructed
    from the three bytes "a\0b" holds all three in its buffer, and
    writing it to an empty stream writes the single byte "a". *)
Lemma render_counterexample :
  ∃ st,
    Str_from 0 ["a"; x00; "b"]%byte 3 empty_state = Some st ∧
    raw_content 0 st = Some (["a"; x00; "b"]%byte ++ [x00]) ∧
    op_shl [] 0 st = Some ["a"]%byte ∧
    op_shl [] 0 st ≠ Some ["a"; x00; "b"]%byte.
Proof. eexists. repeat split; [reflexivity..|discriminate]. Qed.

(* ===================================================================== *)
(** * Parsing as an integer                                               *)
(* ===================================================================== *)

Lemma isspace_not_digit b : isspace b = true → isdigit b = false.
Proof.
  unfold isspace, isdigit. rewrite bool_decide_eq_true, bool_decide_eq_false.
  intros [-> | [-> | [-> | [-> | [-> | ->]]]]]; vm_compute; intros [H1 H2];
    by (apply H1 || apply H2).
Qed.

Lemma isdigit_not_space b : isdigit b = true → isspace b = false.
Proof.
  intros Hd. destruct (isspace b) eqn:Hs; [|done].
  apply isspace_not_digit in Hs. congruence.
Qed.

Lemma isdigit_not_sign b : isdigit b = true → b ≠ "-"%byte ∧ b ≠ "+"%byte.
Proof. intros Hd. split; intros ->; done. Qed.

Lemma skip_spaces_app ws b r :
  Forall (λ b, isspace b = true) ws → isspace b = false →
  skip_spaces (ws ++ b :: r) = Some (b :: r).
Proof.
  intros Hws Hb. induction Hws as [|w ws Hw _ IH]; simpl.
  - by rewrite Hb.
  - by rewrite Hw.
Qed.

Lemma read_digits_app acc ds b r :
  Forall (λ b, isdigit b = true) ds → isdigit b = false →
  read_digits acc (ds ++ b :: r) =
    Some (foldl (λ acc d, 10 * acc + (uchar d - 48)) acc ds).
Proof.
  intros Hds Hb. revert acc. induction Hds as [|d ds Hd _ IH]; intros acc; simpl.
  - by rewrite Hb.
  - by rewrite Hd.
Qed.

(** C8, with the bound the type [int] puts on it: for a handle whose
    buffer holds white space [ws], an optional sign [sg], a run of digits
    [ds] and a rest that does not go on with a digit (nor, when there is
    neither sign nor digit, with white space or a sign), [parse_to_int]
    returns the number the digits denote in decimal, negated after a minus
    sign, whenever that number is an [int], and is undefined when it is
    not; it returns 0 when there is no digit. *)
Theorem parse_to_int_decimal st this ws sg ds rest :
  raw_content this st = Some ((ws ++ sign_bytes sg ++ ds ++ rest) ++ [x00]) →
  Forall (λ b, isspace b = true) ws →
  Forall (λ b, isdigit b = true) ds →
  isdigit (hd x00 rest) = false →
  (sg = NoSign → ds = [] →
   isspace (hd x00 rest) = false ∧
   hd x00 rest ≠ "-"%byte ∧ hd x00 rest ≠ "+"%byte) →
  parse_to_int this st = to_int (signed sg (decimal ds)) ∧
  (INT_MIN ≤ signed sg (decimal ds) ≤ INT_MAX →
   parse_to_int this st = Some (signed sg (decimal ds))) ∧
  (¬ INT_MIN ≤ signed sg (decimal ds) ≤ INT_MAX → parse_to_int this st = None) ∧
  (ds = [] → parse_to_int this st = Some 0).
Proof.
  intros Hraw Hws Hds Hstop Hbare.
  assert (parse_to_int this st = to_int (signed sg (decimal ds))) as Hparse.
  2:{ split; [done|]. rewrite Hparse. split; [apply to_int_in_range|]. split.
      - intros Hout. unfold to_int. by rewrite decide_False.
      - intros ->. by destruct sg. }
  assert (∃ b r, rest ++ [x00] = b :: r ∧ b = hd x00 rest) as (b & r & Htail & Hb).
  { destruct rest as [|b rest]; simpl; eauto. }
  rewrite <- Hb in *. clear Hb.
  assert (parse_to_int this st =
          atoi_bytes (ws ++ sign_bytes sg ++ ds ++ b :: r)) as ->.
  { unfold parse_to_int, atoi. unfold raw_content, c_str in Hraw.
    destruct (get_ptr this st) as [[a|]|]; simpl in *; try done.
    rewrite Hraw. simpl. by rewrite <- Htail, <- !app_assoc. }
  unfold atoi_bytes, decimal.
  destruct sg; simpl sign_bytes; simpl signed.
  - rewrite app_nil_l. destruct Hds as [|d ds Hd Hds].
    + destruct Hbare as (Hsp & Hm & Hp); [done..|]. simpl app.
      rewrite skip_spaces_app by done. simpl.
      rewrite !decide_False by done. by rewrite Hstop.
    + rewrite <- app_comm_cons.
      rewrite skip_spaces_app by (done || by apply isdigit_not_space).
      destruct (isdigit_not_sign d Hd) as [Hm Hp]. simpl mbind.
      rewrite !decide_False by done.
      by rewrite Hd, read_digits_app by done.
  - simpl app. rewrite skip_spaces_app by done. simpl mbind.
    by rewrite read_digits_app by done.
  - simpl app. rewrite skip_spaces_app by done. simpl mbind.
    by rewrite read_digits_app by done.
Qed.

Lemma parse_to_int_witness :
  ∃ st,
    run [SFrom 0 ["4"; "2"]%byte 2; SFrom 1 ["-"; "7"]%byte 2;
         SFrom 2 ["a"; "b"; "c"]%byte 3; SFrom 3 [" "; "+"; "1"; "0"; "k"]%byte 5]
        empty_state = Some st ∧
    parse_to_int 0 st = Some 42 ∧
    parse_to_int 1 st = Some (-7) ∧
    parse_to_int 2 st = Some 0 ∧
    parse_to_int 3 st = Some 10.
Proof.
  eexists. split; [reflexivity|].
  split; [|split; [|split]].
  - refine (proj1 (proj2 (parse_to_int_decimal _ 0%nat [] NoSign ["4"; "2"]%byte []
                            _ _ _ _ _)) _);
      [reflexivity|repeat constructor|repeat constructor|reflexivity
      |discriminate|done].
  - refine (proj1 (proj2 (parse_to_int_decimal _ 1%nat [] Minus ["7"]%byte []
                            _ _ _ _ _)) _);
      [reflexivity|repeat constructor|repeat constructor|reflexivity
      |discriminate|done].
  - refine (proj2 (proj2 (proj2 (parse_to_int_decimal _ 2%nat [] NoSign []
                                   ["a"; "b"; "c"]%byte _ _ _ _ _))) _);
      [reflexivity|repeat constructor|repeat constructor|reflexivity| |done].
    intros _ _. repeat split; discriminate.
  - refine (proj1 (proj2 (parse_to_int_decimal _ 3%nat [" "]%byte Plus
                            ["1"; "0"]%byte ["k"]%byte _ _ _ _ _)) _);
      [reflexivity|repeat constructor|repeat constructor|reflexivity
      |discriminate|done].
Defined.

(** C8 fails where the number leaves the type [int]: the content
    "2147483648" is ten digits that denote [INT_MAX + 1], and
    [parse_to_int], whose result is an [int], does not return that number
    (the call to [atoi] is undefined there). *)
Lemma parse_to_int_counterexample :
  ∃ st,
    Str_from 0 ["2"; "1"; "4"; "7"; "4"; "8"; "3"; "6"; "4"; "8"]%byte 10
      empty_state = Some st ∧
    Forall (λ b, isdigit b = true)
      ["2"; "1"; "4"; "7"; "4"; "8"; "3"; "6"; "4"; "8"]%byte ∧
    decimal ["2"; "1"; "4"; "7"; "4"; "8"; "3"; "6"; "4"; "8"]%byte
      = INT_MAX + 1 ∧
    parse_to_int 0 st = None ∧
    parse_to_int 0 st
      ≠ Some (decimal ["2"; "1"; "4"; "7"; "4"; "8"; "3"; "6"; "4"; "8"]%byte).
Proof.
  eexists. split; [reflexivity|]. split; [repeat constructor|].
  split; [reflexivity|]. split; [reflexivity|]. discriminate.
Qed.

(* ===================================================================== *)
(** * The reference count in every reachable state                        *)
(* ===================================================================== *)

Lemma aliases_sharers st x h p c :
  Inv st → objs st !! x = Some h → ptr h = Some p → counter h = Some c →
  aliases p (objs st) = sharers c (objs st).
Proof.
  intros [_ Hpair _] Hx Hp Hc. unfold aliases, sharers. f_equal.
  apply map_filter_ext. intros z hz Hz. simpl.
  destruct (Hpair z x hz h Hz Hx) as [H1 H2]. rewrite <- Hp, <- Hc.
  split; auto.
Qed.

(** X1: in every state a program reaches, the reference count of an
    Initialized handle is the number of objects alive that point to its
    buffer, the handle itself included. *)
Theorem ref_count_is_number_of_aliases prog st x p :
  run prog empty_state = Some st →
  c_str x st = Some (Some p) →
  ref_count x st = Some (Z.of_nat (aliases p (objs st))) ∧
  (1 ≤ aliases p (objs st))%nat.
Proof.
  intros HInv%reachable_Inv Hp. unfold c_str, get_ptr in Hp.
  destruct (objs st !! x) as [h|] eqn:Hx; simpl in Hp; [|done].
  injection Hp as Hp. pose proof HInv as [Hok _ _].
  destruct (handle_ok_cases _ _ (Hok _ _ Hx))
    as [[Hnone _]|(p' & c & _ & _ & Hp' & Hc & _ & _ & Hcount)]; [congruence|].
  assert (p' = p) as -> by congruence.
  rewrite (aliases_sharers st x h p c) by done.
  split; [|by eapply sharers_member].
  unfold ref_count, get_counter, load_int. rewrite Hx. simpl. by rewrite Hc.
Qed.

Lemma ref_count_is_number_of_aliases_witness :
  ∃ st,
    run [SFrom 0 ["a"]%byte 1; SCopy 1 0; SFrom 2 ["a"]%byte 1; SCopy 3 1;
         SDefault 4; SAssign 2 0; SDestroy 1] empty_state = Some st ∧
    c_str 3 st = Some (Some 0%nat) ∧
    aliases 0 (objs st) = 3%nat ∧
    ref_count 3 st = Some (Z.of_nat (aliases 0 (objs st))) ∧
    (1 ≤ aliases 0 (objs st))%nat.
Proof.
  eexists. split; [reflexivity|]. split; [reflexivity|]. split; [reflexivity|].
  apply (ref_count_is_number_of_aliases
           [SFrom 0 ["a"]%byte 1; SCopy 1 0; SFrom 2 ["a"]%byte 1; SCopy 3 1;
            SDefault 4; SAssign 2 0; SDestroy 1] _ 3%nat 0%nat); reflexivity.
Defined.

(** X2: in every state a program reaches, [ref_count()] returns 0 exactly
    for the Uninitialized handles; an Initialized handle never dangles: its
    buffer is allocated and holds a zero-terminated string, its counter is
    allocated, and the count it reports is between 1 and [INT_MAX]. *)
Theorem live_handles_never_dangle prog st x h :
  run prog empty_state = Some st → objs st !! x = Some h →
  (ref_count x st = Some 0 ↔ Uninitialized h) ∧
  (Initialized h →
   ∃ p c k bs w,
     c_str x st = Some (Some p) ∧ get_counter x st = Some (Some c) ∧
     chars st !! p = Some bs ∧ c_string bs = Some w ∧
     ints st !! c = Some k ∧ ref_count x st = Some k ∧ 1 ≤ k ≤ INT_MAX).
Proof.
  intros HInv%reachable_Inv Hx. pose proof HInv as [Hok _ Hint].
  unfold ref_count, c_str, get_ptr, get_counter, load_int. rewrite Hx. simpl.
  destruct (handle_ok_cases _ _ (Hok _ _ Hx))
    as [[Hp Hc]|(p & c & bs & w & Hp & Hc & Hbs & Hw & Hcount)].
  - rewrite Hc. split; [done|]. intros [[? ?] _]. congruence.
  - rewrite Hc, Hp. pose proof (sharers_member c x h _ Hx Hc) as Hpos.
    pose proof (Hint _ _ Hcount) as Hrange. split.
    + rewrite Hcount. split; [intros [= ?]; lia|]. intros [? _]. congruence.
    + intros _. exists p, c, (Z.of_nat (sharers c (objs st))), bs, w.
      repeat split; try done; lia.
Qed.

Lemma live_handles_never_dangle_witness :
  ∃ st,
    run [SFrom 0 ["a"]%byte 1; SCopy 1 0; SDestroy 0] empty_state = Some st ∧
    objs st !! 1%nat = Some (mkStr (Some 0%nat) (Some 0%nat)) ∧
    (ref_count 1 st = Some 0 ↔ Uninitialized (mkStr (Some 0%nat) (Some 0%nat))) ∧
    (Initialized (mkStr (Some 0%nat) (Some 0%nat)) →
     ∃ p c k bs w,
       c_str 1 st = Some (Some p) ∧ get_counter 1 st = Some (Some c) ∧
       chars st !! p = Some bs ∧ c_string bs = Some w ∧
       ints st !! c = Some k ∧ ref_count 1 st = Some k ∧ 1 ≤ k ≤ INT_MAX).
Proof.
  eexists. split; [reflexivity|]. split; [reflexivity|].
  apply (live_handles_never_dangle
           [SFrom 0 ["a"]%byte 1; SCopy 1 0; SDestroy 0] _ 1%nat); reflexivity.
Defined.

(* ===================================================================== *)
(** * Destruction, copy and assignment in every reachable state           *)
(* ===================================================================== *)

(** X3: in every state a program reaches, the destructor of an object
    alive succeeds (nothing is freed twice, no counter underflows) and ends
    the life of that object only. For an Uninitialized handle the free
    store is untouched. For the last handle of a buffer (count 1) exactly
    that buffer and its counter are freed. For any other handle nothing is
    freed and every remaining handle of the buffer reports one less. *)
Theorem destructor_frees_with_last_handle prog st x h :
  run prog empty_state = Some st → objs st !! x = Some h →
  ∃ st',
    Str_destroy x st = Some st' ∧ objs st' = delete x (objs st) ∧
    (Uninitialized h → chars st' = chars st ∧ ints st' = ints st) ∧
    (∀ p c, ptr h = Some p → counter h = Some c → ref_count x st = Some 1 →
       chars st' = delete p (chars st) ∧ ints st' = delete c (ints st)) ∧
    (∀ p k, ptr h = Some p → ref_count x st = Some k → k ≠ 1 →
       chars st' = chars st ∧ dom (ints st') = dom (ints st) ∧
       ∀ z, z ≠ x → c_str z st = Some (Some p) → ref_count z st' = Some (k - 1)).
Proof.
  intros HInv%reachable_Inv Hx. pose proof HInv as [Hok Hpair Hint].
  rewrite (Str_destroy_Inv_eq st x h HInv Hx).
  unfold ref_count, get_counter, load_int. rewrite Hx. simpl.
  destruct (handle_ok_cases _ _ (Hok _ _ Hx))
    as [[Hp Hc]|(p & c & bs & w & Hp & Hc & Hbs & Hw & Hcount)]; rewrite Hp, ?Hc.
  - eexists. split; [done|]. simpl. repeat split; try done; intros; congruence.
  - rewrite Hcount. case_decide as Hone.
    + eexists. split; [done|]. simpl. split; [done|].
      split; [intros [? _]; congruence|]. split.
      * intros p' c' [= <-] [= <-] _. done.
      * intros p' k _ [= <-] Hk. lia.
    + eexists. split; [done|]. simpl. split; [done|].
      split; [intros [? _]; congruence|]. split.
      * intros p' c' _ _ [= Hk]. lia.
      * intros p' k [= <-] [= <-] _. split; [done|]. split.
        { apply dom_insert_lookup_L. eauto. }
        intros z Hz Hpz. unfold c_str, get_ptr in Hpz.
        destruct (objs st !! z) as [hz|] eqn:Hzz; simpl in Hpz; [|done].
        injection Hpz as Hpz. rewrite lookup_delete_ne by done. rewrite Hzz. simpl.
        assert (counter hz = Some c) as ->.
        { rewrite <- Hc. apply (Hpair z x hz h Hzz Hx). congruence. }
        by rewrite lookup_insert_eq.
Qed.

Lemma destructor_frees_with_last_handle_witness :
  ∃ st,
    run [SFrom 0 ["a"]%byte 1; SCopy 1 0] empty_state = Some st ∧
    objs st !! 0%nat = Some (mkStr (Some 0%nat) (Some 0%nat)) ∧
    ref_count 0 st = Some 2 ∧
    ∃ st',
      Str_destroy 0 st = Some st' ∧ objs st' = delete 0%nat (objs st) ∧
      (Uninitialized (mkStr (Some 0%nat) (Some 0%nat)) →
       chars st' = chars st ∧ ints st' = ints st) ∧
      (∀ p c, Some 0%nat = Some p → Some 0%nat = Some c →
         ref_count 0 st = Some 1 →
         chars st' = delete p (chars st) ∧ ints st' = delete c (ints st)) ∧
      (∀ p k, Some 0%nat = Some p → ref_count 0 st = Some k → k ≠ 1 →
         chars st' = chars st ∧ dom (ints st') = dom (ints st) ∧
         ∀ z, z ≠ 0%nat → c_str z st = Some (Some p) →
              ref_count z st' = Some (k - 1)).
Proof.
  eexists. split; [reflexivity|]. split; [reflexivity|]. split; [reflexivity|].
  apply (destructor_frees_with_last_handle
           [SFrom 0 ["a"]%byte 1; SCopy 1 0] _ 0%nat); reflexivity.
Defined.

(** X4: in every state a program reaches, copy-constructing a new object
    from an object alive whose count is below [INT_MAX] succeeds; it
    allocates nothing and frees nothing, the new object points to the
    buffer of its source and is [==] to it. The copy of an Uninitialized
    handle is Uninitialized and no counter changes; after the copy of an
    Initialized handle every handle of the buffer, old or new, reports one
    more than the source did before. *)
Theorem copy_shares_the_buffer prog st x y h k :
  run prog empty_state = Some st →
  alive x st = false → objs st !! y = Some h →
  ref_count y st = Some k → k < INT_MAX →
  ∃ st',
    exec (SCopy x y) st = Some st' ∧
    objs st' = <[x := h]> (objs st) ∧
    chars st' = chars st ∧ dom (ints st') = dom (ints st) ∧
    c_str x st' = c_str y st' ∧ op_eq x y st' = Some true ∧
    (Uninitialized h → ints st' = ints st ∧ ref_count x st' = Some 0) ∧
    (Initialized h →
     ∀ z, alive z st' = true → c_str z st' = c_str y st →
          ref_count z st' = Some (k + 1)).
Proof.
  intros HInv%reachable_Inv Hx%alive_false Hy Hk Hmax.
  pose proof HInv as [Hok Hpair Hint]. simpl.
  unfold alive. rewrite bool_decide_eq_false_2 by (rewrite Hx; by intros [? ?]).
  rewrite (Str_copy_eq x y h st Hy).
  assert (x ≠ y) as Hxy by (intros ->; congruence).
  unfold ref_count, get_counter, load_int in Hk. rewrite Hy in Hk. simpl in Hk.
  assert (∀ st', objs st' = <[x:=h]> (objs st) →
            c_str x st' = c_str y st' ∧ op_eq x y st' = Some true) as Hsame.
  { intros st' Hobjs. unfold c_str, op_eq, get_ptr. rewrite Hobjs.
    rewrite lookup_insert_eq, lookup_insert_ne, Hy by done. simpl.
    by rewrite decide_True. }
  destruct (handle_ok_cases _ _ (Hok _ _ Hy))
    as [[Hp Hc]|(p & c & bs & w & Hp & Hc & Hbs & Hw & Hcount)]; rewrite Hc in *.
  - eexists. split; [done|]. simpl. do 3 (split; [done|]).
    destruct (Hsame (with_objs <[x:=h]> st) eq_refl) as [? ?].
    do 2 (split; [done|]). split.
    + intros _. split; [done|]. unfold ref_count, get_counter. simpl.
      rewrite lookup_insert_eq. simpl. by rewrite Hc.
    + intros [[? ?] _]. congruence.
  - pose proof (Hint _ _ Hk).
    rewrite (incr_eq c k); [|done|unfold INT_MIN in *; lia].
    eexists. split; [done|]. simpl. split; [done|]. split; [done|].
    split; [apply dom_insert_lookup_L; eauto|].
    destruct (Hsame (with_ints <[c:=k + 1]> (with_objs <[x:=h]> st)) eq_refl)
      as [? ?].
    do 2 (split; [done|]). split; [intros [? _]; congruence|].
    intros _ z [hz Hz]%bool_decide_eq_true Hpz. simpl in Hz.
    unfold c_str, get_ptr in Hpz. simpl in Hpz. rewrite Hz, Hy in Hpz.
    injection Hpz as Hpz.
    assert (counter hz = Some c) as Hcz.
    { rewrite lookup_insert in Hz. case_decide; simplify_eq; [done|].
      rewrite <- Hc. by apply (Hpair z y hz h Hz Hy). }
    unfold ref_count, get_counter, load_int. simpl. rewrite Hz. simpl.
    rewrite Hcz. apply lookup_insert_eq.
Qed.

Lemma copy_shares_the_buffer_witness :
  ∃ st,
    run [SFrom 0 ["a"]%byte 1; SCopy 1 0] empty_state = Some st ∧
    alive 2 st = false ∧
    objs st !! 1%nat = Some (mkStr (Some 0%nat) (Some 0%nat)) ∧
    ref_count 1 st = Some 2 ∧ 2 < INT_MAX ∧
    ∃ st',
      exec (SCopy 2 1) st = Some st' ∧
      objs st' = <[2%nat := mkStr (Some 0%nat) (Some 0%nat)]> (objs st) ∧
      chars st' = chars st ∧ dom (ints st') = dom (ints st) ∧
      c_str 2 st' = c_str 1 st' ∧ op_eq 2 1 st' = Some true ∧
      (Uninitialized (mkStr (Some 0%nat) (Some 0%nat)) →
       ints st' = ints st ∧ ref_count 2 st' = Some 0) ∧
      (Initialized (mkStr (Some 0%nat) (Some 0%nat)) →
       ∀ z, alive z st' = true → c_str z st' = c_str 1 st →
            ref_count z st' = Some (2 + 1)).
Proof.
  eexists. split; [reflexivity|]. split; [reflexivity|]. split; [reflexivity|].
  split; [reflexivity|]. split; [reflexivity|].
  apply (copy_shares_the_buffer [SFrom 0 ["a"]%byte 1; SCopy 1 0] _ 2%nat 1%nat);
    reflexivity.
Defined.

Lemma Str_assign_succeeds st x y hx hy k :
  Inv st → objs st !! x = Some hx → objs st !! y = Some hy →
  ref_count y st = Some k → k < INT_MAX →
  ∃ st', Str_assign x y st = Some st'.
Proof.
  intros [Hok Hpair Hint] Hx Hy Hk Hmax.
  rewrite (Str_assign_eq x y hx hy) by done.
  unfold ref_count, get_counter, load_int in Hk. rewrite Hy in Hk. simpl in Hk.
  assert (∀ st1, (∀ c, counter hy = Some c →
                       ∃ v, ints st1 !! c = Some v ∧ INT_MIN ≤ v + 1 ≤ INT_MAX) →
            ∃ st', match counter hy with
                   | Some c => incr c (with_objs <[x:=hy]> st1)
                   | None => Some (with_objs <[x:=hy]> st1)
                   end = Some st') as Hincr.
  { intros st1 Hv. destruct (counter hy) as [c|]; [|eauto].
    destruct (Hv c eq_refl) as (v & Hc & Hr). rewrite (incr_eq c v); eauto. }
  destruct (counter hx) as [c1|] eqn:Hc1.
  - pose proof (handle_ok_counter _ _ _ (Hok _ _ Hx) Hc1) as Hcount.
    pose proof (sharers_member c1 x hx _ Hx Hc1) as Hpos.
    pose proof (Hint _ _ Hcount) as Hr1.
    rewrite (decr_eq c1 _ st Hcount) by (unfold INT_MIN in *; lia). simpl.
    apply Hincr. intros c Hc. simpl. rewrite lookup_insert.
    rewrite Hc in Hk. pose proof (Hint _ _ Hk).
    case_decide; simplify_eq; eexists; (split; [done|]); unfold INT_MIN in *; lia.
  - simpl. apply Hincr. intros c Hc. rewrite Hc in Hk. pose proof (Hint _ _ Hk).
    eexists. split; [done|]. unfold INT_MIN in *; lia.
Qed.

(** X5: in every state a program reaches, assigning [x = y] between two
    objects alive, the count of [y] being below [INT_MAX], succeeds; it
    allocates nothing and frees nothing, [x] then points to the buffer of
    [y] and is [==] to it. When the two pointed to different buffers, every
    handle of the buffer of [y], [x] included, reports one more than [y]
    did, and every other handle of the buffer [x] has left reports one
    less than it did; after assigning an Uninitialized [y], [x] reports 0. *)
Theorem assignment_moves_one_reference prog st x y hx hy k :
  run prog empty_state = Some st →
  objs st !! x = Some hx → objs st !! y = Some hy →
  ref_count y st = Some k → k < INT_MAX →
  ∃ st',
    Str_assign x y st = Some st' ∧
    objs st' = <[x := hy]> (objs st) ∧
    chars st' = chars st ∧ dom (ints st') = dom (ints st) ∧
    c_str x st' = c_str y st' ∧ op_eq x y st' = Some true ∧
    (Uninitialized hy → ref_count x st' = Some 0) ∧
    (ptr hx ≠ ptr hy → Initialized hy →
     ∀ z, alive z st' = true → c_str z st' = c_str y st →
          ref_count z st' = Some (k + 1)) ∧
    (ptr hx ≠ ptr hy → Initialized hx →
     ∀ z kz, z ≠ x → c_str z st = c_str x st → ref_count z st = Some kz →
             ref_count z st' = Some (kz - 1)).
Proof.
  intros HInv%reachable_Inv Hx Hy Hk Hmax.
  destruct (Str_assign_succeeds st x y hx hy k) as [st' Hassign]; [done..|].
  pose proof (Str_assign_Inv _ _ _ _ HInv Hassign) as [Hok' _ _].
  pose proof HInv as [Hok Hpair _].
  destruct (Str_assign_frame _ _ _ _ Hassign) as (hy' & Hy' & Hchars & Hdom & Hobjs).
  assert (hy' = hy) as -> by congruence.
  exists st'. do 4 (split; [done|]).
  assert (objs st' !! x = Some hy) as Hx' by (rewrite Hobjs; apply lookup_insert_eq).
  assert (objs st' !! y = Some hy) as Hy''.
  { rewrite Hobjs, lookup_insert. by case_decide. }
  assert (∀ z hz c, objs st' !! z = Some hz → counter hz = Some c →
            ref_count z st' = Some (Z.of_nat (sharers c (objs st')))) as Hrc'.
  { intros z hz c Hz Hc. unfold ref_count, get_counter, load_int.
    rewrite Hz. simpl. rewrite Hc. by eapply handle_ok_counter; eauto. }
  assert (∀ z hz c, objs st !! z = Some hz → counter hz = Some c →
            ref_count z st = Some (Z.of_nat (sharers c (objs st)))) as Hrc.
  { intros z hz c Hz Hc. unfold ref_count, get_counter, load_int.
    rewrite Hz. simpl. rewrite Hc. by eapply handle_ok_counter; eauto. }
  assert (∀ c, sharers c (objs st') + holds c hx
               = sharers c (objs st) + holds c hy)%nat as Hsh.
  { intros c. rewrite Hobjs, sharers_insert,
      (sharers_delete c x hx (objs st)) by done. lia. }
  split; [unfold c_str, get_ptr; by rewrite Hx', Hy''|].
  split; [unfold op_eq, get_ptr; rewrite Hx', Hy''; simpl; by rewrite decide_True|].
  split; [|split].
  - intros [_ Hc]. unfold ref_count, get_counter. rewrite Hx'. simpl.
    by rewrite Hc.
  - intros Hne [[p Hp] [c Hc]] z [hz Hz]%bool_decide_eq_true Hpz.
    assert (counter hx ≠ Some c) as Hcx.
    { intros Hcx. apply Hne. apply (Hpair x y hx hy Hx Hy). congruence. }
    assert (counter hz = Some c) as Hcz.
    { unfold c_str, get_ptr in Hpz. rewrite Hz, Hy in Hpz. simpl in Hpz.
      injection Hpz as Hpz. rewrite Hobjs, lookup_insert in Hz.
      case_decide; simplify_eq; [done|].
      rewrite <- Hc. by apply (Hpair z y hz hy Hz Hy). }
    rewrite (Hrc' z hz c Hz Hcz). rewrite (Hrc y hy c Hy Hc) in Hk.
    injection Hk as <-. specialize (Hsh c). unfold holds in Hsh.
    rewrite decide_False, decide_True in Hsh by done. f_equal. lia.
  - intros Hne [[p Hp] [c Hc]] z kz Hzx Hpz Hkz.
    assert (counter hy ≠ Some c) as Hcy.
    { intros Hcy. apply Hne. apply (Hpair x y hx hy Hx Hy). congruence. }
    unfold c_str, get_ptr in Hpz. rewrite Hx in Hpz.
    destruct (objs st !! z) as [hz|] eqn:Hz; simpl in Hpz; [|done].
    injection Hpz as Hpz.
    assert (counter hz = Some c) as Hcz.
    { rewrite <- Hc. by apply (Hpair z x hz hx Hz Hx). }
    assert (objs st' !! z = Some hz) as Hz'
      by (rewrite Hobjs, lookup_insert_ne; done).
    rewrite (Hrc' z hz c Hz' Hcz). rewrite (Hrc z hz c Hz Hcz) in Hkz.
    injection Hkz as <-. specialize (Hsh c). unfold holds in Hsh.
    rewrite decide_True, decide_False in Hsh by done. f_equal. lia.
Qed.

Lemma assignment_moves_one_reference_witness :
  ∃ st,
    run [SFrom 0 ["a"]%byte 1; SCopy 1 0; SFrom 2 ["b"]%byte 1] empty_state
      = Some st ∧
    objs st !! 1%nat = Some (mkStr (Some 0%nat) (Some 0%nat)) ∧
    objs st !! 2%nat = Some (mkStr (Some 1%nat) (Some 1%nat)) ∧
    ref_count 2 st = Some 1 ∧ 1 < INT_MAX ∧
    ref_count 0 st = Some 2 ∧
    ∃ st',
      Str_assign 1 2 st = Some st' ∧
      objs st' = <[1%nat := mkStr (Some 1%nat) (Some 1%nat)]> (objs st) ∧
      chars st' = chars st ∧ dom (ints st') = dom (ints st) ∧
      c_str 1 st' = c_str 2 st' ∧ op_eq 1 2 st' = Some true ∧
      (Uninitialized (mkStr (Some 1%nat) (Some 1%nat)) →
       ref_count 1 st' = Some 0) ∧
      (Some 0%nat ≠ Some 1%nat → Initialized (mkStr (Some 1%nat) (Some 1%nat)) →
       ∀ z, alive z st' = true → c_str z st' = c_str 2 st →
            ref_count z st' = Some (1 + 1)) ∧
      (Some 0%nat ≠ Some 1%nat → Initialized (mkStr (Some 0%nat) (Some 0%nat)) →
       ∀ z kz, z ≠ 1%nat → c_str z st = c_str 1 st → ref_count z st = Some kz →
               ref_count z st' = Some (kz - 1)).
Proof.
  eexists. split; [reflexivity|]. split; [reflexivity|]. split; [reflexivity|].
  split; [reflexivity|]. split; [reflexivity|]. split; [reflexivity|].
  apply (assignment_moves_one_reference
           [SFrom 0 ["a"]%byte 1; SCopy 1 0; SFrom 2 ["b"]%byte 1] _ 1%nat 2%nat
           (mkStr (Some 0%nat) (Some 0%nat)) (mkStr (Some 1%nat) (Some 1%nat)) 1);
    reflexivity.
Defined.

(* ===================================================================== *)
(** * Construction never shares                                           *)
(* ===================================================================== *)

(** X6: in every state a program reaches, constructing an object from
    content gives it a buffer and a counter that no object alive has,
    whatever the content (equal contents are not shared); the objects
    alive keep their pointers, their counts and their contents. *)
Theorem construction_never_aliases prog st this s n :
  run prog empty_state = Some st →
  alive this st = false → (n ≤ length s)%nat →
  ∃ st1,
    exec (SFrom this s n) st = Some st1 ∧
    ref_count this st1 = Some 1 ∧
    ∀ z, alive z st = true →
      c_str z st1 = c_str z st ∧ ref_count z st1 = ref_count z st ∧
      raw_content z st1 = raw_content z st ∧
      c_str z st1 ≠ c_str this st1 ∧
      get_counter z st1 ≠ get_counter this st1.
Proof.
  intros HInv%reachable_Inv Hthis Hn. pose proof HInv as [Hok _ _].
  exists (constructed this s n st). simpl. rewrite Hthis.
  split; [by apply Str_from_eq|]. split; [apply constructed_ref_count|].
  intros z [hz Hz]%bool_decide_eq_true.
  assert (z ≠ this) as Hne.
  { intros ->. apply alive_false in Hthis. congruence. }
  assert (objs (constructed this s n st) !! z = Some hz) as Hz'.
  { unfold constructed. simpl. by rewrite lookup_insert_ne. }
  assert (ptr hz ≠ Some (fresh (dom (chars st)))) as Hp.
  { intros Heq. destruct (handle_ok_ptr _ _ _ (Hok _ _ Hz) Heq) as [? Hbs].
    by rewrite Str_from_fresh_chars in Hbs. }
  assert (counter hz ≠ Some (fresh (dom (ints st)))) as Hc.
  { intros Heq. pose proof (handle_ok_counter _ _ _ (Hok _ _ Hz) Heq) as Hcount.
    by rewrite Str_from_fresh_ints in Hcount. }
  unfold c_str, raw_content, c_str, ref_count, get_ptr, get_counter, load_int.
  rewrite Hz', Hz, constructed_obj. simpl.
  split; [done|]. split; [|split; [|split]].
  - destruct (counter hz) as [c|]; [|done].
    rewrite lookup_insert_ne; [done|congruence].
  - destruct (ptr hz) as [p|]; [|done]. simpl.
    rewrite lookup_insert_ne; [done|congruence].
  - congruence.
  - congruence.
Qed.

Lemma construction_never_aliases_witness :
  ∃ st,
    run [SFrom 0 ["a"]%byte 1; SDefault 1] empty_state = Some st ∧
    alive 2 st = false ∧ (1 ≤ length ["a"]%byte)%nat ∧
    ∃ st1,
      exec (SFrom 2 ["a"]%byte 1) st = Some st1 ∧
      ref_count 2 st1 = Some 1 ∧
      ∀ z, alive z st = true →
        c_str z st1 = c_str z st ∧ ref_count z st1 = ref_count z st ∧
        raw_content z st1 = raw_content z st ∧
        c_str z st1 ≠ c_str 2 st1 ∧
        get_counter z st1 ≠ get_counter 2 st1.
Proof.
  eexists. split; [reflexivity|]. split; [reflexivity|]. split; [simpl; lia|].
  apply (construction_never_aliases [SFrom 0 ["a"]%byte 1; SDefault 1] _ 2%nat);
    [reflexivity|reflexivity|simpl; lia].
Defined.

(* ===================================================================== *)
(** * Construction from a [std::string]                                   *)
(* ===================================================================== *)

Lemma op_shl_key x st k os :
  key x st = Some k → op_shl os x st = Some (os ++ default [] k).
Proof.
  unfold key, op_shl. destruct (get_ptr x st) as [[a|]|]; simpl; try done.
  - destruct (chars st !! a) as [bs|]; simpl; [|done].
    destruct (c_string bs) as [w|]; simpl; [|done]. by intros [= <-].
  - intros [= <-]. simpl. by rewrite app_nil_r.
Qed.

(** X7: the constructor from a [std::string] always succeeds, whatever the
    bytes of the string: the new handle has count 1, its buffer holds all
    the bytes of the string and the terminator, also the bytes after a
    zero byte, and writing it to a stream appends the bytes before the
    first zero byte; for a string without a zero byte the stream gets the
    string back, and the string is the key the comparisons use. *)
Theorem string_constructor_roundtrip st this s os :
  ∃ st1,
    Str_of_string this s st = Some st1 ∧
    ref_count this st1 = Some 1 ∧
    raw_content this st1 = Some (s ++ [x00]) ∧
    op_shl os this st1 = Some (os ++ before_zero s) ∧
    key this st1 = Some (Some (before_zero s)) ∧
    (x00 ∉ s →
     op_shl os this st1 = Some (os ++ s) ∧ key this st1 = Some (Some s)).
Proof.
  unfold Str_of_string.
  assert (length s ≤ length (s ++ [x00]))%nat as Hn by (rewrite length_app; lia).
  exists (constructed this (s ++ [x00]) (length s) st).
  split; [by apply Str_from_eq|]. split; [apply constructed_ref_count|].
  assert (raw_content this (constructed this (s ++ [x00]) (length s) st)
          = Some (s ++ [x00])) as Hraw.
  { by rewrite constructed_raw_content, take_app_length. }
  assert (key this (constructed this (s ++ [x00]) (length s) st)
          = Some (Some (before_zero s))) as Hkey.
  { unfold raw_content, c_str in Hraw. unfold key.
    destruct (get_ptr this _) as [[a|]|]; simpl in *; try done.
    rewrite Hraw. simpl. by rewrite c_string_terminated. }
  split; [done|]. split; [by rewrite (op_shl_key _ _ _ _ Hkey)|].
  split; [done|]. intros Hs.
  rewrite (op_shl_key _ _ _ _ Hkey), Hkey. simpl. by rewrite before_zero_id.
Qed.

(* ===================================================================== *)
(** * Laws of the comparison operators                                    *)
(* ===================================================================== *)

Lemma key_le_trans k1 k2 k3 :
  key_lt k2 k1 = false → key_lt k3 k2 = false → key_lt k3 k1 = false.
Proof.
  intros H21 H32. destruct (key_lt k3 k1) eqn:H31; [|done].
  destruct (key_lt_total k1 k2) as [H12|[->|H]]; [|congruence..].
  pose proof (key_lt_trans _ _ _ H31 H12). congruence.
Qed.

(** X8: in every state a program reaches and for any objects alive, [==]
    is symmetric and transitive and [!=] is its negation; [<=] is
    reflexive, transitive and total, and two handles are [<=] both ways
    exactly when they are [==]; [a <= b] is [a < b] or [a == b]; [>=] and
    [>] are [<=] and [<] with the sides swapped. *)
Theorem equality_and_order_laws prog st a b c :
  run prog empty_state = Some st →
  alive a st = true → alive b st = true → alive c st = true →
  op_eq a b st = op_eq b a st ∧
  (op_eq a b st = Some true → op_eq b c st = Some true →
   op_eq a c st = Some true) ∧
  op_ne a b st = negb <$> op_eq a b st ∧
  op_le a a st = Some true ∧
  (op_le a b st = Some true → op_le b c st = Some true →
   op_le a c st = Some true) ∧
  (op_le a b st = Some true ∨ op_le b a st = Some true) ∧
  (op_le a b st = Some true ∧ op_le b a st = Some true ↔
   op_eq a b st = Some true) ∧
  (op_le a b st = Some true ↔
   op_lt a b st = Some true ∨ op_eq a b st = Some true) ∧
  op_ge a b st = op_le b a st ∧ op_gt a b st = op_lt b a st.
Proof.
  intros HInv%reachable_Inv [ha Ha]%bool_decide_eq_true
    [hb Hb]%bool_decide_eq_true [hc Hc]%bool_decide_eq_true.
  destruct (Inv_key st a ha HInv Ha) as [ka Hka].
  destruct (Inv_key st b hb HInv Hb) as [kb Hkb].
  destruct (Inv_key st c hc HInv Hc) as [kc Hkc].
  destruct (operators_by_key st a a ka ka Hka Hka) as (_ & _ & -> & _).
  destruct (operators_by_key st b a kb ka Hkb Hka) as (-> & _ & -> & _ & -> & _).
  destruct (operators_by_key st b c kb kc Hkb Hkc) as (_ & _ & -> & _ & -> & _).
  destruct (operators_by_key st a c ka kc Hka Hkc) as (_ & _ & -> & _ & -> & _).
  destruct (operators_by_key st a b ka kb Hka Hkb) as (-> & -> & -> & -> & -> & ->).
  rewrite key_lt_irrefl. simpl.
  split; [f_equal; apply bool_decide_ext; split; congruence|].
  split.
  { intros [= ->%bool_decide_eq_true] [= ->%bool_decide_eq_true].
    by rewrite bool_decide_eq_true_2. }
  do 2 (split; [done|]).
  split.
  { intros [= H1%negb_true_iff] [= H2%negb_true_iff]. f_equal.
    apply negb_true_iff. by eapply key_le_trans. }
  split.
  { destruct (key_lt kb ka) eqn:Hba; [right|by left].
    by rewrite (key_lt_asym _ _ Hba). }
  split.
  { split.
    - intros [[= H1%negb_true_iff] [= H2%negb_true_iff]]. f_equal.
      apply bool_decide_eq_true.
      destruct (key_lt_total ka kb) as [?|[?|?]]; [congruence|done|congruence].
    - intros [= ->%bool_decide_eq_true]. by rewrite key_lt_irrefl. }
  split; [|done].
  split.
  - intros [= H1%negb_true_iff].
    destruct (key_lt_total ka kb) as [->|[->|?]]; [by left| |congruence].
    right. by rewrite bool_decide_eq_true_2.
  - intros [[= H1]|[= ->%bool_decide_eq_true]].
    + by rewrite (key_lt_asym _ _ H1).
    + by rewrite key_lt_irrefl.
Qed.

Lemma equality_and_order_laws_witness :
  ∃ st,
    run [SDefault 0; SFrom 1 ["a"]%byte 1; SFrom 2 ["a"; "b"]%byte 2]
        empty_state = Some st ∧
    alive 0 st = true ∧ alive 1 st = true ∧ alive 2 st = true ∧
    op_le 0 1 st = Some true ∧ op_le 1 2 st = Some true ∧
    op_eq 0 1 st = op_eq 1 0 st ∧
    (op_eq 0 1 st = Some true → op_eq 1 2 st = Some true →
     op_eq 0 2 st = Some true) ∧
    op_ne 0 1 st = negb <$> op_eq 0 1 st ∧
    op_le 0 0 st = Some true ∧
    (op_le 0 1 st = Some true → op_le 1 2 st = Some true →
     op_le 0 2 st = Some true) ∧
    (op_le 0 1 st = Some true ∨ op_le 1 0 st = Some true) ∧
    (op_le 0 1 st = Some true ∧ op_le 1 0 st = Some true ↔
     op_eq 0 1 st = Some true) ∧
    (op_le 0 1 st = Some true ↔
     op_lt 0 1 st = Some true ∨ op_eq 0 1 st = Some true) ∧
    op_ge 0 1 st = op_le 1 0 st ∧ op_gt 0 1 st = op_lt 1 0 st.
Proof.
  eexists. split; [reflexivity|]. do 5 (split; [reflexivity|]).
  apply (equality_and_order_laws
           [SDefault 0; SFrom 1 ["a"]%byte 1; SFrom 2 ["a"; "b"]%byte 2]
           _ 0%nat 1%nat 2%nat); reflexivity.
Defined.

(* ===================================================================== *)
(** * [parse_to_int] as a function of the content                         *)
(* ===================================================================== *)

Lemma skip_spaces_terminated w rest :
  skip_spaces (w ++ x00 :: rest) = Some (drop_spaces w ++ x00 :: rest).
Proof.
  induction w as [|b w IH]; simpl; [done|].
  destruct (isspace b); [apply IH|done].
Qed.

Lemma read_digits_terminated acc w rest :
  read_digits acc (w ++ x00 :: rest) = Some (digits_value acc w).
Proof.
  revert acc. induction w as [|b w IH]; intros acc; simpl; [done|].
  destruct (isdigit b); [apply IH|done].
Qed.

Lemma atoi_bytes_number w rest :
  atoi_bytes (w ++ x00 :: rest) = to_int (number w).
Proof.
  unfold atoi_bytes, number. rewrite skip_spaces_terminated. simpl.
  destruct (drop_spaces w) as [|b r]; simpl.
  - done.
  - repeat case_decide.
    + by rewrite read_digits_terminated.
    + by rewrite read_digits_terminated.
    + destruct (isdigit b); [by rewrite read_digits_terminated|done].
Qed.

Lemma parse_to_int_by_key x st k :
  key x st = Some k →
  parse_to_int x st = match k with
                      | None => None
                      | Some w => to_int (number w)
                      end.
Proof.
  unfold key, parse_to_int, atoi.
  destruct (get_ptr x st) as [[a|]|]; simpl; try done.
  - destruct (chars st !! a) as [bs|]; simpl; [|done].
    destruct (c_string bs) as [w|] eqn:Hw; simpl; [|done]. intros [= <-].
    destruct (c_string_Some_inv bs w Hw) as [_ [rest ->]].
    apply atoi_bytes_number.
  - by intros [= <-].
Qed.

(** X9: in every state a program reaches, [parse_to_int] of an object
    alive depends on the content up to the first zero byte only: for an
    Initialized handle with that content [w] it returns the number [w]
    denotes (white space, an optional sign, then digits as far as they go)
    whenever that number is an [int], and is undefined only when it is
    not; it never reads past the terminator. For an Uninitialized handle
    it is undefined. *)
Theorem parse_to_int_reads_the_c_string prog st x :
  run prog empty_state = Some st → alive x st = true →
  ∃ k,
    key x st = Some k ∧
    match k with
    | None => c_str x st = Some None ∧ parse_to_int x st = None
    | Some w =>
        (x00 ∉ w) ∧ (∃ rest, raw_content x st = Some (w ++ x00 :: rest)) ∧
        parse_to_int x st = to_int (number w) ∧
        (INT_MIN ≤ number w ≤ INT_MAX → parse_to_int x st = Some (number w))
    end.
Proof.
  intros HInv%reachable_Inv [h Hx]%bool_decide_eq_true.
  destruct (Inv_key st x h HInv Hx) as [k Hk]. exists k. split; [done|].
  pose proof (key_meaning x st k Hk) as Hm.
  pose proof (parse_to_int_by_key x st k Hk) as Hparse.
  destruct k as [w|]; [|done].
  destruct Hm as [Hz Hraw]. do 3 (split; [done|]).
  intros Hr. by rewrite Hparse, to_int_in_range.
Qed.

Lemma parse_to_int_reads_the_c_string_witness :
  ∃ st,
    run [SFrom 0 ["	"; "-"; "1"; "2"; x00; "3"]%byte 6; SCopy 1 0; SDestroy 0]
        empty_state = Some st ∧
    alive 1 st = true ∧
    parse_to_int 1 st = Some (-12) ∧
    ∃ k,
      key 1 st = Some k ∧
      match k with
      | None => c_str 1 st = Some None ∧ parse_to_int 1 st = None
      | Some w =>
          (x00 ∉ w) ∧ (∃ rest, raw_content 1 st = Some (w ++ x00 :: rest)) ∧
          parse_to_int 1 st = to_int (number w) ∧
          (INT_MIN ≤ number w ≤ INT_MAX → parse_to_int 1 st = Some (number w))
      end.
Proof.
  eexists. split; [reflexivity|]. split; [reflexivity|]. split; [reflexivity|].
  apply (parse_to_int_reads_the_c_string
           [SFrom 0 ["	"; "-"; "1"; "2"; x00; "3"]%byte 6; SCopy 1 0; SDestroy 0]
           _ 1%nat); reflexivity.
Defined.

(* ===================================================================== *)
(** * What [==] means for the other operations                            *)
(* ===================================================================== *)

Lemma valid_by_key st x h k :
  Inv st → objs st !! x = Some h → key x st = Some k →
  valid x st = Some (bool_decide (k = None)).
Proof.
  intros [Hok _ _] Hx Hk. unfold valid, get_counter. rewrite Hx. simpl.
  destruct (key_Some_inv x st k Hk) as (h' & Hx' & Hm).
  assert (h' = h) as -> by congruence. f_equal.
  destruct (handle_ok_cases _ _ (Hok _ _ Hx))
    as [[Hp Hc]|(p & c & _ & _ & Hp & Hc & _)]; rewrite Hp in Hm; rewrite Hc;
    destruct k; try done.
Qed.

(** X10: in every state a program reaches, two handles that are [==]
    cannot be told apart by the other operations: they write the same
    bytes to a stream, parse to the same integer, have the same validity
    and compare alike with any third handle. Conversely two Initialized
    handles that write the same bytes are [==]. *)
Theorem equal_handles_behave_alike prog st a b c os :
  run prog empty_state = Some st →
  alive a st = true → alive b st = true → alive c st = true →
  (op_eq a b st = Some true →
   op_shl os a st = op_shl os b st ∧
   parse_to_int a st = parse_to_int b st ∧
   valid a st = valid b st ∧
   op_eq a c st = op_eq b c st ∧
   op_lt a c st = op_lt b c st ∧ op_lt c a st = op_lt c b st) ∧
  (valid a st = Some false → valid b st = Some false →
   op_shl os a st = op_shl os b st → op_eq a b st = Some true).
Proof.
  intros HInv%reachable_Inv [ha Ha]%bool_decide_eq_true
    [hb Hb]%bool_decide_eq_true [hc Hc]%bool_decide_eq_true.
  destruct (Inv_key st a ha HInv Ha) as [ka Hka].
  destruct (Inv_key st b hb HInv Hb) as [kb Hkb].
  destruct (Inv_key st c hc HInv Hc) as [kc Hkc].
  rewrite (op_shl_key a st ka os Hka), (op_shl_key b st kb os Hkb).
  rewrite (parse_to_int_by_key a st ka Hka), (parse_to_int_by_key b st kb Hkb).
  rewrite (valid_by_key st a ha ka HInv Ha Hka), (valid_by_key st b hb kb HInv Hb Hkb).
  destruct (operators_by_key st a c ka kc Hka Hkc) as (-> & _ & _ & _ & -> & _).
  destruct (operators_by_key st b c kb kc Hkb Hkc) as (-> & _ & _ & _ & -> & _).
  destruct (operators_by_key st c a kc ka Hkc Hka) as (-> & _).
  destruct (operators_by_key st c b kc kb Hkc Hkb) as (-> & _).
  destruct (operators_by_key st a b ka kb Hka Hkb) as (_ & _ & _ & _ & -> & _).
  split.
  - intros [= ->%bool_decide_eq_true]. done.
  - intros [= Hva%bool_decide_eq_false] [= Hvb%bool_decide_eq_false] [= Hout].
    f_equal. apply bool_decide_eq_true.
    destruct ka as [wa|], kb as [wb|]; try done. simpl in Hout.
    apply app_inv_head in Hout. by subst.
Qed.

Lemma equal_handles_behave_alike_witness :
  ∃ st,
    run [SFrom 0 ["7"; x00; "a"]%byte 3; SFrom 1 ["7"; x00; "b"]%byte 3;
         SFrom 2 ["8"]%byte 1] empty_state = Some st ∧
    alive 0 st = true ∧ alive 1 st = true ∧ alive 2 st = true ∧
    op_eq 0 1 st = Some true ∧ c_str 0 st ≠ c_str 1 st ∧
    (op_eq 0 1 st = Some true →
     op_shl [] 0 st = op_shl [] 1 st ∧
     parse_to_int 0 st = parse_to_int 1 st ∧
     valid 0 st = valid 1 st ∧
     op_eq 0 2 st = op_eq 1 2 st ∧
     op_lt 0 2 st = op_lt 1 2 st ∧ op_lt 2 0 st = op_lt 2 1 st) ∧
    (valid 0 st = Some false → valid 1 st = Some false →
     op_shl [] 0 st = op_shl [] 1 st → op_eq 0 1 st = Some true).
Proof.
  eexists. split; [reflexivity|]. do 4 (split; [reflexivity|]).
  split; [discriminate|].
  apply (equal_handles_behave_alike
           [SFrom 0 ["7"; x00; "a"]%byte 3; SFrom 1 ["7"; x00; "b"]%byte 3;
            SFrom 2 ["8"]%byte 1] _ 0%nat 1%nat 2%nat []); reflexivity.
Defined.

(* ===================================================================== *)
(** * Programs without assignment leak nothing                            *)
(* ===================================================================== *)

Lemma sharers_holder c (m : gmap obj Str) :
  (1 ≤ sharers c m)%nat → ∃ x h, m !! x = Some h ∧ counter h = Some c.
Proof.
  unfold sharers. intros Hpos.
  assert (size (filter (λ kv : obj * Str, counter kv.2 = Some c) m) ≠ 0%nat)
    as Hne by lia.
  apply map_size_ne_0_lookup in Hne as (x & h & Hx).
  apply map_lookup_filter_Some in Hx as [Hx Hc]. eauto.
Qed.

Lemma all_held_insert_fresh st st' x h :
  all_held st → objs st !! x = None →
  objs st' = <[x:=h]> (objs st) →
  (∀ p, is_Some (chars st' !! p) → is_Some (chars st !! p) ∨ ptr h = Some p) →
  (∀ c, is_Some (ints st' !! c) → is_Some (ints st !! c) ∨ counter h = Some c) →
  all_held st'.
Proof.
  intros [Hp Hc] Hx Hobjs Hchars Hints. split.
  - intros p [Hold|Hnew]%Hchars.
    + destruct (Hp p Hold) as (z & hz & Hz & Hpz). exists z, hz.
      rewrite Hobjs, lookup_insert_ne; [done|]. intros ->. congruence.
    + exists x, h. by rewrite Hobjs, lookup_insert_eq.
  - intros c [Hold|Hnew]%Hints.
    + destruct (Hc c Hold) as (z & hz & Hz & Hcz). exists z, hz.
      rewrite Hobjs, lookup_insert_ne; [done|]. intros ->. congruence.
    + exists x, h. by rewrite Hobjs, lookup_insert_eq.
Qed.

Lemma exec_all_held s st st' :
  Inv st → all_held st → is_assignment s = false →
  exec s st = Some st' → all_held st'.
Proof.
  intros HInv Hheld Hs Hexec. pose proof HInv as [Hok Hpair Hint].
  destruct s as [x|x str n|x y|x y|x]; simpl in *; try done;
    try (destruct (alive x st) eqn:Hx; [done|apply alive_false in Hx]).
  - injection Hexec as <-.
    apply (all_held_insert_fresh st _ x (mkStr None None)); simpl; eauto.
  - apply Str_from_inv in Hexec as [_ ->].
    eapply (all_held_insert_fresh st _ x); [done..|reflexivity| |];
      unfold constructed; simpl; intros a; rewrite lookup_insert;
      case_decide; subst; eauto.
  - destruct (objs st !! y) as [hy|] eqn:Hy;
      [|by unfold Str_copy in Hexec; rewrite Hy in Hexec].
    rewrite (Str_copy_eq x y hy) in Hexec by done.
    destruct (counter hy) as [c|] eqn:Hc.
    + apply incr_Some in Hexec as (v & Hv & _ & ->).
      apply (all_held_insert_fresh st _ x hy); simpl; eauto.
      intros c'. rewrite lookup_insert. case_decide; subst; eauto.
    + simplify_eq. apply (all_held_insert_fresh st _ x hy); simpl; eauto.
  - destruct (Str_destroy_alive _ _ _ Hexec) as [h Hx].
    rewrite (Str_destroy_Inv_eq st x h HInv Hx) in Hexec.
    destruct Hheld as [Hp Hc].
    assert (∀ c, counter h = Some c → (2 ≤ sharers c (objs st))%nat →
              ∃ z hz, delete x (objs st) !! z = Some hz ∧
                      counter hz = Some c ∧ ptr hz = ptr h) as Hother.
    { intros c Hch Htwo.
      destruct (sharers_holder c (delete x (objs st))) as (z & hz & Hz & Hcz).
      { rewrite (sharers_delete c x h _ Hx) in Htwo. unfold holds in Htwo.
        rewrite decide_True in Htwo by done. lia. }
      exists z, hz. split; [done|]. split; [done|].
      rewrite lookup_delete in Hz. case_decide; [done|].
      apply (Hpair z x hz h Hz Hx). congruence. }
    assert (∀ z hz, objs st !! z = Some hz → z ≠ x →
              delete x (objs st) !! z = Some hz) as Hkeep
      by (intros; by rewrite lookup_delete_ne).
    destruct (handle_ok_cases _ _ (Hok _ _ Hx))
      as [[Hnp Hnc]|(p & c & bs & w & Hhp & Hhc & Hbs & _ & Hcount)];
      rewrite ?Hnp, ?Hhp, ?Hhc in Hexec.
    + simplify_eq. split; simpl.
      * intros p' (z & hz & Hz & Hpz)%Hp. exists z, hz. split; [|done].
        apply Hkeep; [done|]. intros ->. congruence.
      * intros c' (z & hz & Hz & Hcz)%Hc. exists z, hz. split; [|done].
        apply Hkeep; [done|]. intros ->. congruence.
    + pose proof (sharers_member c x h _ Hx Hhc) as Hpos.
      case_decide as Hlast; simplify_eq; split; simpl.
      * intros p'. rewrite lookup_delete. case_decide as Hpp; [by intros [? ?]|].
        intros (z & hz & Hz & Hpz)%Hp. exists z, hz. split; [|done].
        apply Hkeep; [done|]. intros ->. congruence.
      * intros c'. rewrite lookup_delete. case_decide as Hcc; [by intros [? ?]|].
        intros (z & hz & Hz & Hcz)%Hc. exists z, hz. split; [|done].
        apply Hkeep; [done|]. intros ->. congruence.
      * intros p' (z & hz & Hz & Hpz)%Hp.
        destruct (decide (z = x)) as [->|Hzx]; [|by exists z, hz; eauto].
        destruct (Hother c Hhc ltac:(lia)) as (z' & hz' & Hz' & _ & Hpz').
        exists z', hz'. split; [done|]. congruence.
      * intros c'. rewrite lookup_insert. intros Hc'.
        assert (is_Some (ints st !! c')) as (z & hz & Hz & Hcz)%Hc.
        { case_decide; subst; eauto. }
        destruct (decide (z = x)) as [->|Hzx]; [|by exists z, hz; eauto].
        destruct (Hother c Hhc ltac:(lia)) as (z' & hz' & Hz' & Hcz' & _).
        exists z', hz'. split; [done|]. congruence.
Qed.

Lemma run_all_held prog st st' :
  Inv st → all_held st → Forall (λ s, is_assignment s = false) prog →
  run prog st = Some st' → all_held st'.
Proof.
  revert st. induction prog as [|s prog IH]; intros st HInv Hheld Hprog Hrun;
    simpl in *.
  - by simplify_eq.
  - destruct (exec s st) as [st1|] eqn:Hexec; simpl in Hrun; [|done].
    apply Forall_cons_1 in Hprog as [Hs Hprog].
    eapply (IH st1); [by eapply exec_Inv|by eapply exec_all_held|done..].
Qed.

(** X11: a program that uses no assignment leaks nothing: in every state
    it reaches, each allocated buffer and each allocated counter is in use
    by an object alive, and once no object is alive the free store is
    empty. *)
Theorem no_leak_without_assignment prog st :
  run prog empty_state = Some st →
  Forall (λ s, is_assignment s = false) prog →
  all_held st ∧ (objs st = ∅ → chars st = ∅ ∧ ints st = ∅).
Proof.
  intros Hrun Hprog.
  assert (all_held st) as Hheld.
  { eapply run_all_held; [apply Inv_empty| |done..].
    split; intros a [? Ha]; simpl in Ha; by rewrite lookup_empty in Ha. }
  split; [done|]. intros Hobjs. destruct Hheld as [Hp Hc].
  split; apply map_empty; intros a; apply eq_None_not_Some.
  - intros (z & hz & Hz & _)%Hp. by rewrite Hobjs, lookup_empty in Hz.
  - intros (z & hz & Hz & _)%Hc. by rewrite Hobjs, lookup_empty in Hz.
Qed.

Lemma no_leak_without_assignment_witness :
  ∃ st,
    run [SFrom 0 ["a"]%byte 1; SCopy 1 0; SDefault 2; SFrom 3 ["b"]%byte 1;
         SDestroy 0; SDestroy 3; SDestroy 2; SDestroy 1] empty_state = Some st ∧
    Forall (λ s, is_assignment s = false)
      [SFrom 0 ["a"]%byte 1; SCopy 1 0; SDefault 2; SFrom 3 ["b"]%byte 1;
       SDestroy 0; SDestroy 3; SDestroy 2; SDestroy 1] ∧
    objs st = ∅ ∧
    all_held st ∧ (objs st = ∅ → chars st = ∅ ∧ ints st = ∅).
Proof.
  eexists. split; [reflexivity|]. split; [repeat constructor|].
  split; [reflexivity|].
  apply (no_leak_without_assignment
           [SFrom 0 ["a"]%byte 1; SCopy 1 0; SDefault 2; SFrom 3 ["b"]%byte 1;
            SDestroy 0; SDestroy 3; SDestroy 2; SDestroy 1]);
    [reflexivity|repeat constructor].
Defined.

(* ===================================================================== *)
(** * A handle is untouched by what is done to other handles              *)
(* ===================================================================== *)

(** X12: in every state a program reaches, statements that do not have the
    object [x] as their target (constructions, copies of [x] or of others,
    assignments to others, destructions of others, the object [x] was
    copied from among them) leave [x] alive with the same pointer, the
    same bytes in its buffer, the same output, the same parsed integer and
    the same validity. *)
Theorem other_statements_leave_a_handle_alone prog0 st x prog st2 os :
  run prog0 empty_state = Some st → alive x st = true →
  Forall (λ s, target s ≠ x) prog → run prog st = Some st2 →
  alive x st2 = true ∧
  c_str x st2 = c_str x st ∧
  raw_content x st2 = raw_content x st ∧
  op_shl os x st2 = op_shl os x st ∧
  parse_to_int x st2 = parse_to_int x st ∧
  valid x st2 = valid x st.
Proof.
  intros HInv%reachable_Inv [h Hx]%bool_decide_eq_true Hprog Hrun.
  destruct (run_frame prog st st2 x h HInv Hrun Hprog Hx) as [Hx2 Hbuf].
  unfold alive, c_str, raw_content, c_str, op_shl, parse_to_int, atoi, valid,
    get_ptr, get_counter.
  rewrite Hx2, Hx. simpl.
  split; [done|]. split; [done|].
  destruct (ptr h) as [p|] eqn:Hp; simpl; [|done].
  by rewrite (Hbuf p eq_refl).
Qed.

Lemma other_statements_leave_a_handle_alone_witness :
  ∃ st st2,
    run [SFrom 0 ["4"; "2"]%byte 2; SCopy 1 0] empty_state = Some st ∧
    alive 1 st = true ∧
    Forall (λ s, target s ≠ 1%nat)
      [SDestroy 0; SFrom 0 ["x"]%byte 1; SCopy 2 1; SAssign 0 2; SDestroy 2] ∧
    run [SDestroy 0; SFrom 0 ["x"]%byte 1; SCopy 2 1; SAssign 0 2; SDestroy 2] st
      = Some st2 ∧
    alive 1 st2 = true ∧
    c_str 1 st2 = c_str 1 st ∧
    raw_content 1 st2 = raw_content 1 st ∧
    op_shl [] 1 st2 = op_shl [] 1 st ∧
    parse_to_int 1 st2 = parse_to_int 1 st ∧
    valid 1 st2 = valid 1 st.
Proof.
  eexists _, _. split; [reflexivity|]. split; [reflexivity|].
  split; [repeat constructor; discriminate|]. split; [reflexivity|].
  apply (other_statements_leave_a_handle_alone
           [SFrom 0 ["4"; "2"]%byte 2; SCopy 1 0] _ 1%nat
           [SDestroy 0; SFrom 0 ["x"]%byte 1; SCopy 2 1; SAssign 0 2; SDestroy 2]
           _ []);
    [reflexivity|reflexivity|repeat constructor; discriminate|reflexivity].
Defined.
